(** * ELBO term extraction and assembly of [pyro.contrib.funsor.infer.traceenum_elbo]

    A shallow embedding of [terms_from_trace] and of the two
    [differentiable_loss] bodies ([TraceEnum_ELBO], [TraceMarkovEnum_ELBO]),
    and the properties of the natural-language specification checked
    against them.

    Conventions of the embedding:
    - a funsor is a symbolic term ([Funsor]): operators build nodes, the
      numeric content of a tensor is opaque;
    - [frozenset]s of names are [gset string], dictionaries keyed by names
      are [gmap string _], the ordered dictionary [tr.nodes] is an
      association list in trace order;
    - a Python float is represented by the rational it denotes; the only
      float operation the module performs itself is the test [!= 1.];
    - [terms_from_trace] assigns to [node["funsor"]["log_prob"]], so it
      returns the updated trace next to the bundle;
    - the funsor engine ([sum_product], [partial_sum_product], the adjoint
      tape, the optimizer) is an interface ([Engine]); every call to it is
      recorded in a call log. *)

From Stdlib Require Import QArith.
From stdpp Require Import gmap strings list fin_maps.

Local Close Scope Q_scope.
Local Open Scope string_scope.
Local Open Scope list_scope.
Local Open Scope nat_scope.

(** ** Funsors *)

(** The members of [funsor.ops] this module names or applies. *)
Inductive Op := logaddexp | add | mul | neg.

(** The array held by a [funsor.Tensor]: the all-zero array of a probe
    factor, or some other array, known here only by an identifier. *)
Inductive Data := zeros | array (id : nat).

Inductive Funsor :=
| Number (x : Q)
| Tensor (data : Data) (inputs : gmap string nat)
| Unary (op : Op) (arg : Funsor)
| Binary (op : Op) (lhs rhs : Funsor)
| Reduce (op : Op) (arg : Funsor) (reduced_vars : gset string)
| Integrate (log_measure integrand : Funsor) (reduced_vars : gset string).

(** Mapping without the names in [vs]. *)
Definition without (vs : gset string) (m : gmap string nat) : gmap string nat :=
  filter (λ kv, kv.1 ∉ vs) m.

(** [f.inputs]: name ↦ size of the (finite) domain. *)
Fixpoint inputs (f : Funsor) : gmap string nat :=
  match f with
  | Number _ => ∅
  | Tensor _ i => i
  | Unary _ a => inputs a
  | Binary _ a b => inputs a ∪ inputs b
  | Reduce _ a vs => without vs (inputs a)
  | Integrate lm g vs => without vs (inputs lm ∪ inputs g)
  end.

(** [frozenset(f.inputs)] *)
Definition input_names (f : Funsor) : gset string := dom (inputs f).

(** [f.reduce(op)] without an explicit set reduces every input. *)
Definition reduce (op : Op) (f : Funsor) (vs : option (gset string)) : Funsor :=
  Reduce op f (default (input_names f) vs).

(** Exact value of a term built from numbers by the arithmetic operators;
    [None] for anything else. *)
Fixpoint number_value (f : Funsor) : option Q :=
  match f with
  | Number x => Some x
  | Unary neg a => Qopp <$> number_value a
  | Binary add a b => x ← number_value a; y ← number_value b; Some (Qplus x y)
  | Binary mul a b => x ← number_value a; y ← number_value b; Some (Qmult x y)
  | _ => None
  end.

(** ** Traces *)

(** A step descriptor of a [markov_chain] record: a collection of name
    tuples.  The module only stores it and tests it for emptiness. *)
Abbreviation Step := (list (list string)).

Record CondIndepStackFrame := {
  frame_name : string;
  dim : option Z;
  size : nat;
}.

Definition vectorized (f : CondIndepStackFrame) : bool :=
  match dim f with Some _ => true | None => false end.

(** [node["funsor"]] *)
Record FunsorFields := {
  funsor_log_measure : option Funsor;
  funsor_value : Funsor;
  funsor_log_prob : Funsor;
  funsor_scale : Q;                 (* a scalar funsor, kept by its value *)
}.

Record Node := {
  type : string;
  name : string;
  fn_type_name : string;            (* type(node["fn"]).__name__ *)
  infer_do_not_score : bool;        (* node["infer"].get("_do_not_score", False) *)
  value : Step;                     (* node["value"] of a markov_chain record *)
  cond_indep_stack : list CondIndepStackFrame;
  funsor : FunsorFields;
  is_observed : bool;
  replay_active : bool;             (* node.get("replay_active", False) *)
  replay_skipped : bool;            (* node.get("replay_skipped", False) *)
}.

(** [tr.nodes.items()] *)
Abbreviation Trace := (list (string * Node)).

Definition set_log_prob (node : Node) (lp : Funsor) : Node :=
  {| type := type node; name := name node; fn_type_name := fn_type_name node;
     infer_do_not_score := infer_do_not_score node; value := value node;
     cond_indep_stack := cond_indep_stack node;
     funsor := {| funsor_log_measure := funsor_log_measure (funsor node);
                  funsor_value := funsor_value (funsor node);
                  funsor_log_prob := lp;
                  funsor_scale := funsor_scale (funsor node) |};
     is_observed := is_observed node; replay_active := replay_active node;
     replay_skipped := replay_skipped node |}.

(** ** Term bundles *)

Record Terms := {
  log_factors : list Funsor;
  log_measures : list Funsor;
  scale : Funsor;
  plate_vars : gset string;
  measure_vars : gset string;
  plate_to_step : gmap string Step;
}.

Definition initial_terms : Terms :=
  {| log_factors := []; log_measures := []; scale := Number 1;
     plate_vars := ∅; measure_vars := ∅; plate_to_step := ∅ |}.

(** The condition of the [continue] on lines 26-28, negated. *)
Definition is_scored (node : Node) : bool :=
  bool_decide (type node = "sample")
  && negb (bool_decide (fn_type_name node = "_Subsample"))
  && negb (infer_do_not_score node).

(** [frozenset(f.name for f in node["cond_indep_stack"] if f.vectorized)] *)
Definition vectorized_names (node : Node) : gset string :=
  list_to_set (frame_name <$> filter (λ f, vectorized f = true) (cond_indep_stack node)).

(** [bool(a & b)] for two sets. *)
Definition intersects (a b : gset string) : bool :=
  negb (bool_decide (a ∩ b = ∅)).

(** The test of lines 37-38, against the measure variables [mv]
    accumulated so far. *)
Definition shares_scale (mv : gset string) (node : Node) : bool :=
  replay_active node
  && intersects (input_names (funsor_log_prob (funsor node))) mv
  && negb (Qeq_bool (funsor_scale (funsor node)) 1).

(** One iteration of the loop over [tr.nodes.items()]: the bundle and the
    node record after the iteration. *)
Definition visit (terms : Terms) (key : string) (node : Node) : Terms * Node :=
  let pts :=
    if bool_decide (type node = "markov_chain")
    then <[name node := value node]> (plate_to_step terms)
    else plate_to_step terms in
  if negb (is_scored node) then
    ({| log_factors := log_factors terms; log_measures := log_measures terms;
        scale := scale terms; plate_vars := plate_vars terms;
        measure_vars := measure_vars terms; plate_to_step := pts |}, node)
  else
    let pv := plate_vars terms ∪ vectorized_names node in
    let '(lms, mv) :=
      match funsor_log_measure (funsor node) with
      | Some lm =>
          (log_measures terms ++ [lm],
           measure_vars terms ∪ ((input_names (funsor_value (funsor node)) ∪ {[key]}) ∖ pv))
      | None => (log_measures terms, measure_vars terms)
      end in
    let '(sc, node') :=
      if shares_scale mv node
      then (Number (funsor_scale (funsor node)), node)
      else (scale terms,
            set_log_prob node
              (Binary mul (funsor_log_prob (funsor node))
                          (Number (funsor_scale (funsor node))))) in
    let lfs :=
      if is_observed node || negb (replay_skipped node)
      then log_factors terms ++ [funsor_log_prob (funsor node')]
      else log_factors terms in
    ({| log_factors := lfs; log_measures := lms; scale := sc; plate_vars := pv;
        measure_vars := mv; plate_to_step := pts |}, node').

Fixpoint visit_all (terms : Terms) (nodes : Trace) : Terms * Trace :=
  match nodes with
  | [] => (terms, [])
  | (key, node) :: rest =>
      let '(terms1, node') := visit terms key node in
      let '(terms2, rest') := visit_all terms1 rest in
      (terms2, (key, node') :: rest')
  end.

(** Line 47:
    [plate_to_step.update({plate: plate_to_step.get(plate, {}) for plate in plate_vars})] *)
Definition add_plates (terms : Terms) : Terms :=
  let pts := plate_to_step terms in
  let fresh : gmap string Step :=
    set_to_map (λ plate, (plate, default [] (pts !! plate))) (plate_vars terms) in
  {| log_factors := log_factors terms; log_measures := log_measures terms;
     scale := scale terms; plate_vars := plate_vars terms;
     measure_vars := measure_vars terms; plate_to_step := fresh ∪ pts |}.

(** [terms_from_trace(tr)]: the returned bundle and the trace as the call
    leaves it. *)
Definition terms_from_trace (tr : Trace) : Terms * Trace :=
  let '(terms, tr') := visit_all initial_terms tr in
  (add_plates terms, tr').

(** ** What the specification says of a trace

    The definitions of this part follow the wording of the specification:
    they speak of a site by its position in the trace and of what has been
    accumulated "up to and including" it, without a loop. *)

(** The plates a site contributes (step 3 of the extractor). *)
Definition site_plates (node : Node) : gset string :=
  if is_scored node then vectorized_names node else ∅.

(** The plate variables of the sites of [nodes]. *)
Definition plates_of (nodes : Trace) : gset string :=
  ⋃ ((λ kn, site_plates kn.2) <$> nodes).

(** The fresh measure variables of a site, given the plate variables [pv]
    (step 4 of the extractor). *)
Definition site_measure_vars (pv : gset string) (key : string) (node : Node) : gset string :=
  if is_scored node then
    match funsor_log_measure (funsor node) with
    | Some _ => (input_names (funsor_value (funsor node)) ∪ {[key]}) ∖ pv
    | None => ∅
    end
  else ∅.

(** The contribution of the site at position [i]: its fresh variables
    minus the plate variables accumulated up to and including that site. *)
Definition contribution (tr : Trace) (i : nat) : gset string :=
  match tr !! i with
  | Some (key, node) => site_measure_vars (plates_of (take (S i) tr)) key node
  | None => ∅
  end.

(** The measure variables accumulated over the first [k] sites. *)
Definition measure_vars_upto (tr : Trace) (k : nat) : gset string :=
  ⋃ (contribution tr <$> seq 0 k).

(** The site at position [i] qualifies as a shared-scale site. *)
Definition qualifies (tr : Trace) (i : nat) : bool :=
  match tr !! i with
  | Some (_, node) => is_scored node && shares_scale (measure_vars_upto tr (S i)) node
  | None => false
  end.

(** The scales of the qualifying sites, in trace order. *)
Definition candidates (tr : Trace) : list Q :=
  omap (λ i, if qualifies tr i
             then (λ kn : string * Node, funsor_scale (funsor kn.2)) <$> tr !! i
             else None)
       (seq 0 (length tr)).

(** The log-measures of the scored sites that carry one, in trace order. *)
Definition measures_of (tr : Trace) : list Funsor :=
  omap (λ kn : string * Node,
          if is_scored kn.2 then funsor_log_measure (funsor kn.2) else None) tr.

(** The site's log-probability with its own scale multiplied in. *)
Definition scaled_log_prob (node : Node) : Funsor :=
  Binary mul (funsor_log_prob (funsor node)) (Number (funsor_scale (funsor node))).

(** The site is one whose log-probability becomes a factor (step 6). *)
Definition is_factor (node : Node) : bool :=
  is_scored node && (is_observed node || negb (replay_skipped node)).

(** The descriptor registered for [plate] by the [markov_chain] records of
    the trace: that of the last such record, if there is one. *)
Definition registered_step (tr : Trace) (plate : string) : option Step :=
  last (omap (λ kn : string * Node,
                if bool_decide (type kn.2 = "markov_chain")
                   && bool_decide (name kn.2 = plate)
                then Some (value kn.2) else None) tr).

(** The factor the site at position [i] adds to [log_factors], if any:
    its log-probability as the scale handling (step 5) leaves it. *)
Definition factor_at (tr : Trace) (i : nat) : option Funsor :=
  kn ← tr !! i;
  if is_factor kn.2
  then Some (if qualifies tr i then funsor_log_prob (funsor kn.2)
             else scaled_log_prob kn.2)
  else None.

(** The factors of the trace, in trace order. *)
Definition factors_of (tr : Trace) : list Funsor :=
  omap (factor_at tr) (seq 0 (length tr)).

(** Every field of [node'] other than [funsor.log_prob] is that of [node]. *)
Definition same_but_log_prob (node node' : Node) : Prop :=
  type node' = type node ∧ name node' = name node
  ∧ fn_type_name node' = fn_type_name node
  ∧ infer_do_not_score node' = infer_do_not_score node
  ∧ value node' = value node
  ∧ cond_indep_stack node' = cond_indep_stack node
  ∧ is_observed node' = is_observed node
  ∧ replay_active node' = replay_active node
  ∧ replay_skipped node' = replay_skipped node
  ∧ funsor_log_measure (funsor node') = funsor_log_measure (funsor node)
  ∧ funsor_value (funsor node') = funsor_value (funsor node)
  ∧ funsor_scale (funsor node') = funsor_scale (funsor node).

(** The bundle after the loop has visited [nodes]. *)
Definition terms_after (nodes : Trace) : Terms := (visit_all initial_terms nodes).1.

(** ** The funsor engine and its call log *)

(** A call into the funsor library, with the arguments it was given. *)
Inductive Call :=
| call_partial_sum_product
    (sum_op prod_op : Op) (factors : list Funsor) (plates eliminate : gset string)
| call_modified_partial_sum_product
    (sum_op prod_op : Op) (factors : list Funsor)
    (plate_to_step : gmap string Step) (eliminate : gset string)
| call_sum_product
    (sum_op prod_op : Op) (factors : list Funsor) (plates eliminate : gset string)
| call_adjoint (sum_op prod_op : Op) (root : Funsor) (targets : list Funsor)
| call_apply_optimizer (f : Funsor).

(** What the library returns for each call.  The routines are pure
    functions of their arguments. *)
Class Engine := {
  partial_sum_product :
    Op → Op → list Funsor → gset string → gset string → list Funsor;
  modified_partial_sum_product :
    Op → Op → list Funsor → gmap string Step → gset string → list Funsor;
  sum_product :
    Op → Op → list Funsor → gset string → gset string → Funsor;
  (* tape.adjoint(sum_op, prod_op, root, targets).values() *)
  adjoint : Op → Op → Funsor → list Funsor → list Funsor;
  apply_optimizer : Funsor → Funsor;
}.

Inductive Exception := StopIteration.

Inductive Result (A : Type) :=
| Return (a : A)
| Raise (e : Exception).
Arguments Return {A} a.
Arguments Raise {A} e.

(** A computation that appends to the call log and may raise. *)
Definition Eff (A : Type) : Type := list Call → Result A * list Call.

Definition eff_ret {A} (a : A) : Eff A := λ log, (Return a, log).

Definition eff_bind {A B} (m : Eff A) (k : A → Eff B) : Eff B :=
  λ log, match m log with
         | (Return a, log') => k a log'
         | (Raise e, log') => (Raise e, log')
         end.

Definition raise {A} (e : Exception) : Eff A := λ log, (Raise e, log).

(** Record the call [c] and hand back the library's answer [a]. *)
Definition calling {A} (c : Call) (a : A) : Eff A := λ log, (Return a, log ++ [c]).

Notation "x ⇐ m ;; k" := (eff_bind m (λ x, k))
  (at level 100, m at next level, right associativity,
   format "'[v' x  ⇐  m  ;;  '/' k ']'").

(** [for x in l: acc = body(acc, x)] *)
Fixpoint for_each {A B} (body : B → A → Eff B) (acc : B) (l : list A) : Eff B :=
  match l with
  | [] => eff_ret acc
  | x :: rest => acc' ⇐ body acc x;; for_each body acc' rest
  end.

(** The calls of a log, by callee. *)
Definition is_partial_sum_product (c : Call) : bool :=
  match c with call_partial_sum_product _ _ _ _ _ => true | _ => false end.
Definition is_modified_partial_sum_product (c : Call) : bool :=
  match c with call_modified_partial_sum_product _ _ _ _ _ => true | _ => false end.
Definition is_sum_product (c : Call) : bool :=
  match c with call_sum_product _ _ _ _ _ => true | _ => false end.

(** The [eliminate] argument of an elimination call. *)
Definition eliminate_of (c : Call) : option (gset string) :=
  match c with
  | call_partial_sum_product _ _ _ _ e
  | call_modified_partial_sum_product _ _ _ _ e
  | call_sum_product _ _ _ _ e => Some e
  | _ => None
  end.

(** ** The two losses *)

Section losses.
Context {E : Engine}.

(** The split of the model's factors (lines 69-74 and 143-148). *)
Definition contracted_factors (model_terms : Terms) : list Funsor :=
  filter (λ f, intersects (measure_vars model_terms) (input_names f) = true)
         (log_factors model_terms).
Definition uncontracted_factors (model_terms : Terms) : list Funsor :=
  filter (λ f, intersects (measure_vars model_terms) (input_names f) = false)
         (log_factors model_terms).

(** [frozenset(plate for plate, step in terms["plate_to_step"].items() if step)] *)
Definition markov_dims (terms : Terms) : gset string :=
  dom (filter (λ kv : string * Step, kv.2 ≠ []) (plate_to_step terms)).

(** The zero-valued factor with the inputs of [cost] (lines 94-95); the
    output type it copies from [cost] is not represented. *)
Definition probe (cost : Funsor) : Funsor := Tensor zeros (inputs cost).

(** [sum(fs)]: Python starts from [0]. *)
Definition py_sum (fs : list Funsor) : Funsor := foldl (Binary add) (Number 0) fs.

(** [next(iter(log_q for log_q in log_qs
                if dict(log_q.inputs) == dict(cost.inputs)))] *)
Definition next_marginal (log_qs : list Funsor) (cost : Funsor) : Eff Funsor :=
  match filter (λ log_q, inputs log_q = inputs cost) log_qs with
  | log_q :: _ => eff_ret log_q
  | [] => raise StopIteration
  end.

(** Lines 66-108 of [TraceMarkovEnum_ELBO.differentiable_loss]: the cost
    terms and the marginals recovered by the adjoint pass. *)
Definition markov_costs_and_marginals (guide_terms model_terms : Terms)
  : Eff (list Funsor * list Funsor) :=
  residuals ⇐ (let eliminate := measure_vars model_terms ∪ markov_dims model_terms in
               let factors := log_measures model_terms ++ contracted_factors model_terms in
               calling (call_modified_partial_sum_product logaddexp add factors
                          (plate_to_step model_terms) eliminate)
                       (modified_partial_sum_product logaddexp add factors
                          (plate_to_step model_terms) eliminate));;
  let contracted_costs := Binary mul (scale model_terms) <$> residuals in
  let model_costs := contracted_costs ++ uncontracted_factors model_terms in
  let costs := model_costs ++ (Unary neg <$> log_factors guide_terms) in
  let guide_markov_dims := markov_dims guide_terms in
  let targets := (probe <$> model_costs) ++ log_measures guide_terms in
  parts ⇐ (let eliminate := measure_vars guide_terms ∪ guide_markov_dims in
           calling (call_modified_partial_sum_product logaddexp add targets
                      (plate_to_step guide_terms) eliminate)
                   (modified_partial_sum_product logaddexp add targets
                      (plate_to_step guide_terms) eliminate));;
  let logzq := py_sum parts in
  logzq ⇐ calling (call_apply_optimizer logzq) (apply_optimizer logzq);;
  log_qs ⇐ calling (call_adjoint logaddexp add logzq targets)
                   (adjoint logaddexp add logzq targets);;
  eff_ret (costs, log_qs).

(** Lines 110-118: the expectation of every cost under its marginal. *)
Definition markov_assemble (guide_terms : Terms) (costs log_qs : list Funsor)
  : Eff Funsor :=
  for_each
    (λ elbo cost,
       log_prob ⇐ next_marginal log_qs cost;;
       let elbo_term :=
         Integrate log_prob cost (input_names cost ∖ dom (plate_to_step guide_terms)) in
       eff_ret (Binary add elbo (reduce add elbo_term None)))
    (Number 0) costs.

(** [TraceMarkovEnum_ELBO.differentiable_loss], from the two traces that
    the handlers recorded. *)
Definition TraceMarkovEnum_ELBO_differentiable_loss (guide_tr model_tr : Trace)
  : Eff Funsor :=
  let guide_terms := (terms_from_trace guide_tr).1 in
  let model_terms := (terms_from_trace model_tr).1 in
  cq ⇐ markov_costs_and_marginals guide_terms model_terms;;
  elbo ⇐ markov_assemble guide_terms cq.1 cq.2;;
  r ⇐ calling (call_apply_optimizer elbo) (apply_optimizer elbo);;
  eff_ret (Unary neg r).

(** Lines 141-157 of [TraceEnum_ELBO.differentiable_loss]: the cost terms. *)
Definition enum_costs (guide_terms model_terms : Terms) : Eff (list Funsor) :=
  residuals ⇐ (let factors := log_measures model_terms ++ contracted_factors model_terms in
               calling (call_partial_sum_product logaddexp add factors
                          (plate_vars model_terms) (measure_vars model_terms))
                       (partial_sum_product logaddexp add factors
                          (plate_vars model_terms) (measure_vars model_terms)));;
  let contracted_costs := Binary mul (scale model_terms) <$> residuals in
  let costs := contracted_costs ++ uncontracted_factors model_terms in
  eff_ret (costs ++ (Unary neg <$> log_factors guide_terms)).

(** Lines 159-172: the expectation of every cost under a marginal that is
    computed for it. *)
Definition enum_assemble (guide_terms model_terms : Terms) (costs : list Funsor)
  : Eff Funsor :=
  let plate_vars := plate_vars guide_terms ∪ plate_vars model_terms in
  for_each
    (λ elbo cost,
       log_prob ⇐ (let eliminate :=
                     (plate_vars ∪ measure_vars guide_terms) ∖ input_names cost in
                   calling (call_sum_product logaddexp add (log_measures guide_terms)
                              plate_vars eliminate)
                           (sum_product logaddexp add (log_measures guide_terms)
                              plate_vars eliminate));;
       let elbo_term :=
         Integrate log_prob cost (measure_vars guide_terms ∩ input_names cost) in
       eff_ret (Binary add elbo
                  (reduce add elbo_term (Some (plate_vars ∩ input_names cost)))))
    (Number 0) costs.

(** The lazy expression [elbo] of [TraceEnum_ELBO.differentiable_loss]. *)
Definition TraceEnum_ELBO_elbo (guide_tr model_tr : Trace) : Eff Funsor :=
  let guide_terms := (terms_from_trace guide_tr).1 in
  let model_terms := (terms_from_trace model_tr).1 in
  costs ⇐ enum_costs guide_terms model_terms;;
  enum_assemble guide_terms model_terms costs.

(** [TraceEnum_ELBO.differentiable_loss], from the two traces that the
    handlers recorded. *)
Definition TraceEnum_ELBO_differentiable_loss (guide_tr model_tr : Trace)
  : Eff Funsor :=
  elbo ⇐ TraceEnum_ELBO_elbo guide_tr model_tr;;
  r ⇐ calling (call_apply_optimizer elbo) (apply_optimizer elbo);;
  eff_ret (Unary neg r).

End losses.

(** ** What the specification says of the assembly *)

Section assembly.
Context {E : Engine}.

(** All plate variables: those of the guide united with those of the model. *)
Definition all_plates (guide_terms model_terms : Terms) : gset string :=
  plate_vars guide_terms ∪ plate_vars model_terms.

(** The cost terms of the plate-parallel path: contracted model costs
    with the shared scale reapplied, uncontracted model costs, negated
    guide log-densities. *)
Definition enum_cost_terms (guide_terms model_terms : Terms) : list Funsor :=
  (Binary mul (scale model_terms)
     <$> partial_sum_product logaddexp add
           (log_measures model_terms ++ contracted_factors model_terms)
           (plate_vars model_terms) (measure_vars model_terms))
  ++ uncontracted_factors model_terms
  ++ (Unary neg <$> log_factors guide_terms).

(** The guide marginal over the variables of [f] (plate-parallel path). *)
Definition guide_marginal (guide_terms model_terms : Terms) (f : Funsor) : Funsor :=
  sum_product logaddexp add (log_measures guide_terms)
    (all_plates guide_terms model_terms)
    ((all_plates guide_terms model_terms ∪ measure_vars guide_terms) ∖ input_names f).

(** The expectation of [f] under its marginal, summed over the plates of [f]. *)
Definition expected_cost (guide_terms model_terms : Terms) (f : Funsor) : Funsor :=
  Reduce add
    (Integrate (guide_marginal guide_terms model_terms f) f
               (measure_vars guide_terms ∩ input_names f))
    (input_names f ∩ all_plates guide_terms model_terms).

(** The [sum_product] call that computes the marginal of [f]. *)
Definition marginal_call (guide_terms model_terms : Terms) (f : Funsor) : Call :=
  call_sum_product logaddexp add (log_measures guide_terms)
    (all_plates guide_terms model_terms)
    ((all_plates guide_terms model_terms ∪ measure_vars guide_terms) ∖ input_names f).

(** The sum of the contributions of [costs], accumulated from [0]. *)
Definition sum_of_contributions (expectation : Funsor → Funsor) (costs : list Funsor)
  : Funsor :=
  foldl (λ elbo f, Binary add elbo (expectation f)) (Number 0) costs.

(** The cost terms of the Markov path. *)
Definition markov_cost_terms (guide_terms model_terms : Terms) : list Funsor :=
  (Binary mul (scale model_terms)
     <$> modified_partial_sum_product logaddexp add
           (log_measures model_terms ++ contracted_factors model_terms)
           (plate_to_step model_terms)
           (measure_vars model_terms ∪ markov_dims model_terms))
  ++ uncontracted_factors model_terms
  ++ (Unary neg <$> log_factors guide_terms).

(** The targets of the adjoint pass: a zero-valued probe for every model
    cost (contracted and uncontracted), then the guide's log-measures. *)
Definition markov_targets (guide_terms model_terms : Terms) : list Funsor :=
  (probe <$>
     (Binary mul (scale model_terms)
        <$> modified_partial_sum_product logaddexp add
              (log_measures model_terms ++ contracted_factors model_terms)
              (plate_to_step model_terms)
              (measure_vars model_terms ∪ markov_dims model_terms))
     ++ uncontracted_factors model_terms)
  ++ log_measures guide_terms.

(** The partition function of the guide with the probes injected. *)
Definition markov_logzq (guide_terms model_terms : Terms) : Funsor :=
  py_sum (modified_partial_sum_product logaddexp add
            (markov_targets guide_terms model_terms)
            (plate_to_step guide_terms)
            (measure_vars guide_terms ∪ markov_dims guide_terms)).

(** The marginals the adjoint pass recovers. *)
Definition markov_marginals (guide_terms model_terms : Terms) : list Funsor :=
  adjoint logaddexp add (apply_optimizer (markov_logzq guide_terms model_terms))
          (markov_targets guide_terms model_terms).

(** The first of the recovered marginals whose inputs are, as a mapping
    from names to domains, those of [cost]. *)
Definition first_marginal (log_qs : list Funsor) (cost : Funsor) : option Funsor :=
  snd <$> list_find (λ log_q, inputs log_q = inputs cost) log_qs.

(** [pick] is at a position of [log_qs] before which no marginal has the
    inputs of [cost], and has them itself. *)
Definition is_first_match (log_qs : list Funsor) (cost pick : Funsor) : Prop :=
  ∃ i, log_qs !! i = Some pick
       ∧ inputs pick = inputs cost
       ∧ ∀ j log_q, log_qs !! j = Some log_q → j < i → inputs log_q ≠ inputs cost.

(** The number of recovered marginals with the inputs of [cost]. *)
Definition matching_marginals (log_qs : list Funsor) (cost : Funsor) : nat :=
  length (filter (λ log_q, inputs log_q = inputs cost) log_qs).

(** The expectation of [cost] under the marginal [pick] (Markov path). *)
Definition markov_expected_cost (guide_terms : Terms) (cost pick : Funsor) : Funsor :=
  reduce add
    (Integrate pick cost (input_names cost ∖ dom (plate_to_step guide_terms))) None.

(** The Markov [elbo] for the costs paired with their marginals. *)
Definition markov_sum (guide_terms : Terms) (picked : list (Funsor * Funsor)) : Funsor :=
  foldl (λ elbo cp, Binary add elbo (markov_expected_cost guide_terms cp.1 cp.2))
        (Number 0) picked.

End assembly.

(** A call of the log has [plate] in its [eliminate] set. *)
Definition eliminates (plate : string) (c : Call) : bool :=
  match eliminate_of c with
  | Some e => bool_decide (plate ∈ e)
  | None => false
  end.

(** The plate has an entry in [plate_to_step] and it is empty. *)
Definition ordinary_plate (terms : Terms) (plate : string) : Prop :=
  plate_to_step terms !! plate = Some [].

(** The log of a computation started with an empty log. *)
Definition calls_of {A} (m : Eff A) : list Call := (m []).2.

(** ** Further notions about traces and runs *)

(** The names a scored site with a log-measure brings in, before the plate
    variables are taken away: the inputs of its value and its own key. *)
Definition site_names (key : string) (node : Node) : gset string :=
  if is_scored node then
    match funsor_log_measure (funsor node) with
    | Some _ => input_names (funsor_value (funsor node)) ∪ {[key]}
    | None => ∅
    end
  else ∅.

Definition names_at (tr : Trace) (i : nat) : gset string :=
  match tr !! i with
  | Some (key, node) => site_names key node
  | None => ∅
  end.

(** Every plate of the trace that the names of a site mention has been
    entered by the time that site is visited. *)
Definition plates_entered_first (tr : Trace) : Prop :=
  Forall (λ i, names_at tr i ∩ plates_of tr ⊆ plates_of (take (S i) tr))
         (seq 0 (length tr)).

(** The names of the [markov_chain] records of the trace. *)
Definition chain_names (tr : Trace) : gset string :=
  list_to_set (omap (λ kn : string * Node,
                       if bool_decide (type kn.2 = "markov_chain")
                       then Some (name kn.2) else None) tr).

(** The factor the site at position [i] adds when the trace is extracted a
    second time, after a first extraction has written to it. *)
Definition factor_at_again (tr : Trace) (i : nat) : option Funsor :=
  kn ← tr !! i;
  if is_factor kn.2
  then Some (if qualifies tr i then funsor_log_prob (funsor kn.2)
             else Binary mul (scaled_log_prob kn.2)
                             (Number (funsor_scale (funsor kn.2))))
  else None.

(** Two site records under the same key that differ at most in
    [funsor.log_prob], and there not in its inputs. *)
Definition same_site (a b : string * Node) : Prop :=
  a.1 = b.1
  ∧ same_but_log_prob a.2 b.2
  ∧ input_names (funsor_log_prob (funsor b.2))
    = input_names (funsor_log_prob (funsor a.2)).

(** The record is one the loop acts on: a scored sample site or a
    [markov_chain] record. *)
Definition is_read (kn : string * Node) : bool :=
  is_scored kn.2 || bool_decide (type kn.2 = "markov_chain").

(** ** Sample traces and a symbolic engine

    Concrete inputs on which the definitions above are run. *)

Definition sample_site (nm : string) (observed active skipped : bool)
    (lm : option Funsor) (v lp : Funsor) (sc : Q)
    (stack : list CondIndepStackFrame) : Node :=
  {| type := "sample"; name := nm; fn_type_name := "Categorical";
     infer_do_not_score := false; value := []; cond_indep_stack := stack;
     funsor := {| funsor_log_measure := lm; funsor_value := v;
                  funsor_log_prob := lp; funsor_scale := sc |};
     is_observed := observed; replay_active := active; replay_skipped := skipped |}.

Definition markov_chain_record (nm : string) (step : Step) : Node :=
  {| type := "markov_chain"; name := nm; fn_type_name := "method";
     infer_do_not_score := false; value := step; cond_indep_stack := [];
     funsor := {| funsor_log_measure := None; funsor_value := Number 0;
                  funsor_log_prob := Number 0; funsor_scale := 1 |};
     is_observed := false; replay_active := false; replay_skipped := false |}.

Definition tensor (id : nat) (ins : list (string * nat)) : Funsor :=
  Tensor (array id) (list_to_map ins).

Definition plate_frame (nm : string) (d : Z) (n : nat) : CondIndepStackFrame :=
  {| frame_name := nm; dim := Some d; size := n |}.

(** A model trace under replay: [z] is enumerated in the model, [x1] and
    [x2] are observations that depend on [z]; [x1] lies in the subsampled
    plate [a] (scale 2) and [x2] in the subsampled plate [b] (scale 3). *)
Definition site_z : Node :=
  sample_site "z" false true true
    (Some (tensor 0 [("z", 2)])) (tensor 1 [("z", 2)]) (tensor 2 [("z", 2)]) 1 [].
Definition site_x1 : Node :=
  sample_site "x1" true true false
    None (tensor 3 [("a", 5)]) (tensor 4 [("a", 5); ("z", 2)]) 2 [plate_frame "a" (-1) 5].
Definition site_x2 : Node :=
  sample_site "x2" true true false
    None (tensor 5 [("b", 4)]) (tensor 6 [("b", 4); ("z", 2)]) 3 [plate_frame "b" (-1) 4].
Definition two_scales_model : Trace :=
  [ ("z", site_z); ("x1", site_x1); ("x2", site_x2) ].

(** A trace with one scaled observation of log-probability [-2]. *)
Definition scaled_observation : Trace :=
  [ ("x", sample_site "x" true false false None (Number 7) (Number (-2)) 3 []) ].

(** A guide with one latent site [z] inside the plate [p]. *)
Definition plated_guide : Trace :=
  [ ("z", sample_site "z" false false false
            (Some (tensor 0 [("p", 3); ("z", 2)])) (tensor 1 [("p", 3); ("z", 2)])
            (tensor 2 [("p", 3); ("z", 2)]) 1 [plate_frame "p" (-1) 3]) ].

(** A model with one observation outside every plate. *)
Definition global_observation : Trace :=
  [ ("y", sample_site "y" true true false None (tensor 3 []) (tensor 4 []) 1 []) ].

(** A model with two observations outside every plate. *)
Definition two_observations : Trace :=
  [ ("x1", sample_site "x1" true true false None (tensor 3 []) (tensor 4 []) 1 []);
    ("x2", sample_site "x2" true true false None (tensor 5 []) (tensor 6 []) 1 []) ].

(** A trace in which the value of [z] already carries the dimension [p]
    although the plate [p] is only entered at the later site [x]. *)
Definition late_plate : Trace :=
  [ ("z", sample_site "z" false true true
            (Some (tensor 0 [("p", 3); ("z", 2)])) (tensor 1 [("p", 3); ("z", 2)])
            (tensor 2 [("p", 3); ("z", 2)]) 1 []);
    ("x", sample_site "x" true true false
            None (tensor 3 [("p", 3)]) (tensor 4 [("p", 3); ("z", 2)]) 1
            [plate_frame "p" (-1) 3]) ].

(** A trace with a sequential plate [t] (registered by a [markov_chain]
    record) and an ordinary plate [p]. *)
Definition chain_trace : Trace :=
  [ ("t", markov_chain_record "t" [["z_0"; "z_prev"; "z_curr"]]);
    ("z", sample_site "z" false true true
            (Some (tensor 0 [("p", 3); ("t", 4); ("z", 2)]))
            (tensor 1 [("z", 2)])
            (tensor 2 [("p", 3); ("t", 4); ("z", 2)]) 1
            [plate_frame "p" (-1) 3; plate_frame "t" (-2) 4]);
    ("x", sample_site "x" true true false
            None (tensor 3 [("p", 3); ("t", 4)])
            (tensor 4 [("p", 3); ("t", 4); ("z", 2)]) 1
            [plate_frame "p" (-1) 3; plate_frame "t" (-2) 4]) ].

(** An engine that works on terms: an elimination call returns the
    product of its factors reduced over [eliminate] (a single residual
    factor), and the adjoint pass returns, for each target in order, a
    marginal with the inputs of that target. *)
Definition one_residual (sum_op prod_op : Op) (factors : list Funsor)
    (eliminate : gset string) : list Funsor :=
  match factors with
  | [] => []
  | f :: rest => [Reduce sum_op (foldl (Binary prod_op) f rest) eliminate]
  end.

Definition symbolic_engine : Engine :=
  {| partial_sum_product := λ s p fs _ e, one_residual s p fs e;
     modified_partial_sum_product := λ s p fs _ e, one_residual s p fs e;
     sum_product := λ s p fs _ e, Reduce s (foldl (Binary p) (Number 0) fs) e;
     adjoint := λ _ _ _ targets, imap (λ i t, Tensor (array i) (inputs t)) targets;
     apply_optimizer := λ f, f |}.

(** * Properties of [terms_from_trace] *)

(** ** One iteration *)

Section visit_facts.
Implicit Types (terms : Terms) (key : string) (node : Node).

(** The paths through one iteration: the site is skipped (last goal), or
    it is scored, with or without a log-measure, sharing its scale or not. *)
Ltac visit_cases node :=
  unfold visit;
  destruct (is_scored node); simpl;
  [ destruct (funsor_log_measure (funsor node)); simpl;
    (destruct (shares_scale _ node) eqn:?); simpl
  | ].

Lemma visit_plate_vars terms key node :
  plate_vars (visit terms key node).1 = plate_vars terms ∪ site_plates node.
Proof.
  unfold site_plates. visit_cases node; try done.
  by rewrite (right_id_L ∅ (∪)).
Qed.

Lemma visit_measure_vars terms key node :
  measure_vars (visit terms key node).1
  = measure_vars terms
    ∪ site_measure_vars (plate_vars terms ∪ site_plates node) key node.
Proof.
  unfold site_measure_vars, site_plates.
  visit_cases node; by rewrite ?(right_id_L ∅ (∪)).
Qed.

Lemma visit_log_measures terms key node :
  log_measures (visit terms key node).1
  = log_measures terms
    ++ option_list (if is_scored node then funsor_log_measure (funsor node) else None).
Proof. visit_cases node; by rewrite ?app_nil_r. Qed.

(** The node record after the iteration: only a scored site that does not
    share its scale is written to. *)
Lemma visit_node terms key node :
  (visit terms key node).2
  = if is_scored node
       && negb (shares_scale (measure_vars (visit terms key node).1) node)
    then set_log_prob node (scaled_log_prob node)
    else node.
Proof.
  unfold scaled_log_prob.
  visit_cases node; try done;
    match goal with H : shares_scale _ _ = _ |- _ => by rewrite H end.
Qed.

Lemma visit_scale terms key node :
  scale (visit terms key node).1
  = if is_scored node && shares_scale (measure_vars (visit terms key node).1) node
    then Number (funsor_scale (funsor node))
    else scale terms.
Proof.
  visit_cases node; try done;
    match goal with H : shares_scale _ _ = _ |- _ => by rewrite H end.
Qed.

Lemma visit_log_factors terms key node :
  log_factors (visit terms key node).1
  = log_factors terms
    ++ (if is_factor node
        then [funsor_log_prob (funsor (visit terms key node).2)] else []).
Proof.
  unfold is_factor.
  visit_cases node;
    try destruct (is_observed node || negb (replay_skipped node));
    simpl; by rewrite ?app_nil_r.
Qed.

Lemma visit_plate_to_step terms key node :
  plate_to_step (visit terms key node).1
  = if bool_decide (type node = "markov_chain")
    then <[name node := value node]> (plate_to_step terms)
    else plate_to_step terms.
Proof. by visit_cases node. Qed.

(** A [markov_chain] record is never a scored sample site. *)
Lemma markov_chain_not_scored node :
  type node = "markov_chain" → is_scored node = false.
Proof. intros Hty. unfold is_scored. by rewrite Hty. Qed.

End visit_facts.

(** ** The loop *)

Lemma visit_all_app terms (l1 l2 : Trace) :
  visit_all terms (l1 ++ l2)
  = ((visit_all (visit_all terms l1).1 l2).1,
     (visit_all terms l1).2 ++ (visit_all (visit_all terms l1).1 l2).2).
Proof.
  revert terms. induction l1 as [|[key node] l1 IH]; intros terms; simpl.
  - by destruct (visit_all terms l2).
  - destruct (visit terms key node) as [terms1 node'] eqn:Hv.
    rewrite IH. by destruct (visit_all terms1 l1) as [terms2 rest'].
Qed.

Lemma visit_all_one terms key node :
  visit_all terms [(key, node)]
  = ((visit terms key node).1, [(key, (visit terms key node).2)]).
Proof. simpl. by destruct (visit terms key node). Qed.

Lemma terms_after_snoc (l : Trace) key node :
  terms_after (l ++ [(key, node)]) = (visit (terms_after l) key node).1.
Proof. unfold terms_after. by rewrite visit_all_app, visit_all_one. Qed.

Lemma visit_all_length terms (l : Trace) : length (visit_all terms l).2 = length l.
Proof.
  revert terms. induction l as [|[key node] l IH]; intros terms; simpl; [done|].
  destruct (visit terms key node) as [terms1 node'].
  specialize (IH terms1). destruct (visit_all terms1 l). simpl in *. by rewrite IH.
Qed.

Lemma visit_all_cons terms key node (rest : Trace) :
  visit_all terms ((key, node) :: rest)
  = ((visit_all (visit terms key node).1 rest).1,
     (key, (visit terms key node).2) :: (visit_all (visit terms key node).1 rest).2).
Proof.
  simpl. destruct (visit terms key node) as [terms1 node']. simpl.
  by destruct (visit_all terms1 rest).
Qed.

(** The record at position [i] of the trace the loop leaves behind is the
    one its iteration produced from the bundle of the first [i] sites. *)
Lemma visit_all_lookup (tr : Trace) i key node :
  tr !! i = Some (key, node) →
  (visit_all initial_terms tr).2 !! i
  = Some (key, (visit (terms_after (take i tr)) key node).2).
Proof.
  intros Hi.
  rewrite <- (take_drop_middle tr i (key, node) Hi) at 1.
  rewrite visit_all_app, visit_all_cons. cbn [snd].
  assert (Hlen : length (visit_all initial_terms (take i tr)).2 = i).
  { rewrite visit_all_length, length_take. apply lookup_lt_Some in Hi. lia. }
  rewrite lookup_app_r by lia. by rewrite Hlen, Nat.sub_diag.
Qed.

(** ** The accumulated sets, by position *)

Lemma plates_of_app (l1 l2 : Trace) : plates_of (l1 ++ l2) = plates_of l1 ∪ plates_of l2.
Proof. unfold plates_of. by rewrite fmap_app, union_list_app_L. Qed.

Lemma plates_of_one key node : plates_of [(key, node)] = site_plates node.
Proof. unfold plates_of. simpl. by rewrite (right_id_L ∅ (∪)). Qed.

Lemma terms_after_plate_vars (l : Trace) : plate_vars (terms_after l) = plates_of l.
Proof.
  induction l as [|[key node] l IH] using rev_ind; [done|].
  by rewrite terms_after_snoc, visit_plate_vars, IH, plates_of_app, plates_of_one.
Qed.

Lemma contribution_app_l (l l' : Trace) (i : nat) :
  i < length l → contribution (l ++ l') i = contribution l i.
Proof.
  intros Hi. unfold contribution.
  rewrite lookup_app_l by done. by rewrite take_app_le by lia.
Qed.

Lemma contribution_last (l : Trace) key node :
  contribution (l ++ [(key, node)]) (length l)
  = site_measure_vars (plates_of l ∪ site_plates node) key node.
Proof.
  unfold contribution.
  rewrite lookup_app_r, Nat.sub_diag by done. simpl.
  rewrite take_ge by (rewrite length_app; simpl; lia).
  by rewrite plates_of_app, plates_of_one.
Qed.

Lemma measure_vars_upto_S (tr : Trace) k :
  measure_vars_upto tr (S k) = measure_vars_upto tr k ∪ contribution tr k.
Proof.
  unfold measure_vars_upto.
  rewrite seq_S, fmap_app, union_list_app_L. simpl.
  by rewrite (right_id_L ∅ (∪)).
Qed.

Lemma measure_vars_upto_app (l l' : Trace) (k : nat) :
  k ≤ length l → measure_vars_upto (l ++ l') k = measure_vars_upto l k.
Proof.
  induction k as [|k IH]; intros Hk; [done|].
  rewrite !measure_vars_upto_S, IH by lia.
  by rewrite contribution_app_l by lia.
Qed.

Lemma terms_after_measure_vars (l : Trace) :
  measure_vars (terms_after l) = measure_vars_upto l (length l).
Proof.
  induction l as [|[key node] l IH] using rev_ind; [done|].
  rewrite terms_after_snoc, visit_measure_vars, IH, terms_after_plate_vars.
  rewrite length_app, Nat.add_1_r, measure_vars_upto_S.
  by rewrite measure_vars_upto_app, contribution_last by done.
Qed.

Lemma measure_vars_upto_take (tr : Trace) (k : nat) :
  k ≤ length tr → measure_vars_upto (take k tr) k = measure_vars_upto tr k.
Proof.
  intros Hk. rewrite <- (take_drop k tr) at 2.
  by rewrite measure_vars_upto_app by (rewrite length_take; lia).
Qed.

Lemma terms_after_take_measure_vars (tr : Trace) (k : nat) :
  k ≤ length tr → measure_vars (terms_after (take k tr)) = measure_vars_upto tr k.
Proof.
  intros Hk. rewrite terms_after_measure_vars, length_take_le by done.
  by apply measure_vars_upto_take.
Qed.

(** The bundle right after the site at position [i] has been visited. *)
Lemma terms_after_take_S (tr : Trace) i key node :
  tr !! i = Some (key, node) →
  (visit (terms_after (take i tr)) key node).1 = terms_after (take (S i) tr).
Proof. intros Hi. by rewrite (take_S_r _ _ _ Hi), terms_after_snoc. Qed.

Lemma qualifies_spec (tr : Trace) i key node :
  tr !! i = Some (key, node) →
  qualifies tr i
  = is_scored node
    && shares_scale (measure_vars (visit (terms_after (take i tr)) key node).1) node.
Proof.
  intros Hi. unfold qualifies. rewrite Hi.
  rewrite (terms_after_take_S _ _ _ _ Hi).
  rewrite terms_after_take_measure_vars; [done|].
  apply lookup_lt_Some in Hi. lia.
Qed.

Lemma qualifies_app_l (l l' : Trace) (i : nat) :
  i < length l → qualifies (l ++ l') i = qualifies l i.
Proof.
  intros Hi. unfold qualifies.
  rewrite lookup_app_l by done. by rewrite measure_vars_upto_app by lia.
Qed.

(** The record the call leaves at position [i]. *)
Lemma node_after (tr : Trace) i key node :
  tr !! i = Some (key, node) →
  (terms_from_trace tr).2 !! i
  = Some (key, if is_scored node && negb (qualifies tr i)
               then set_log_prob node (scaled_log_prob node)
               else node).
Proof.
  intros Hi. unfold terms_from_trace.
  destruct (visit_all initial_terms tr) as [terms tr'] eqn:Hrun. simpl.
  replace tr' with (visit_all initial_terms tr).2 by (by rewrite Hrun).
  rewrite (visit_all_lookup _ _ _ _ Hi), visit_node.
  rewrite (qualifies_spec _ _ _ _ Hi).
  by destruct (is_scored node), (shares_scale _ node).
Qed.

Lemma terms_from_trace_fst (tr : Trace) :
  (terms_from_trace tr).1 = add_plates (terms_after tr).
Proof.
  unfold terms_from_trace, terms_after. by destruct (visit_all initial_terms tr).
Qed.

Lemma terms_from_trace_length (tr : Trace) : length (terms_from_trace tr).2 = length tr.
Proof.
  unfold terms_from_trace.
  pose proof (visit_all_length initial_terms tr) as Hlen.
  by destruct (visit_all initial_terms tr).
Qed.

(** ** The accumulated lists and the shared scale *)

Lemma omap_seq_ext {A} (f g : nat → option A) (n : nat) :
  (∀ i, i < n → f i = g i) → omap f (seq 0 n) = omap g (seq 0 n).
Proof.
  intros Hfg. apply list_omap_ext, Forall_Forall2_diag, Forall_forall.
  intros i Hi%elem_of_seq. apply Hfg. lia.
Qed.

Lemma snoc_lookup_last (l : Trace) key node :
  (l ++ [(key, node)]) !! length l = Some (key, node).
Proof. by rewrite lookup_app_r, Nat.sub_diag. Qed.

Lemma qualifies_last (l : Trace) key node :
  qualifies (l ++ [(key, node)]) (length l)
  = is_scored node
    && shares_scale (measure_vars (visit (terms_after l) key node).1) node.
Proof.
  rewrite (qualifies_spec _ _ _ _ (snoc_lookup_last l key node)).
  by rewrite take_app_length.
Qed.

Lemma candidates_snoc (l : Trace) key node :
  candidates (l ++ [(key, node)])
  = candidates l
    ++ (if qualifies (l ++ [(key, node)]) (length l)
        then [funsor_scale (funsor node)] else []).
Proof.
  unfold candidates at 1.
  rewrite length_app, Nat.add_1_r, seq_S, omap_app. f_equal.
  - apply omap_seq_ext. intros i Hi.
    rewrite qualifies_app_l by done. by rewrite lookup_app_l by done.
  - simpl. rewrite snoc_lookup_last.
    by destruct (qualifies _ (length l)).
Qed.

Lemma terms_after_scale (l : Trace) :
  scale (terms_after l) = from_option Number (Number 1) (last (candidates l)).
Proof.
  induction l as [|[key node] l IH] using rev_ind; [done|].
  rewrite terms_after_snoc, visit_scale, candidates_snoc, <- qualifies_last.
  destruct (qualifies _ (length l)).
  - by rewrite last_snoc.
  - by rewrite app_nil_r.
Qed.

Lemma factor_at_app_l (l l' : Trace) (i : nat) :
  i < length l → factor_at (l ++ l') i = factor_at l i.
Proof.
  intros Hi. unfold factor_at.
  rewrite lookup_app_l by done. by rewrite qualifies_app_l by done.
Qed.

Lemma factors_of_snoc (l : Trace) key node :
  factors_of (l ++ [(key, node)])
  = factors_of l ++ option_list (factor_at (l ++ [(key, node)]) (length l)).
Proof.
  unfold factors_of at 1.
  rewrite length_app, Nat.add_1_r, seq_S, omap_app. f_equal.
  apply omap_seq_ext. intros i Hi. by apply factor_at_app_l.
Qed.

Lemma terms_after_log_factors (l : Trace) : log_factors (terms_after l) = factors_of l.
Proof.
  induction l as [|[key node] l IH] using rev_ind; [done|].
  rewrite terms_after_snoc, visit_log_factors, IH, factors_of_snoc. f_equal.
  unfold factor_at. rewrite snoc_lookup_last. simpl.
  rewrite visit_node, qualifies_last.
  unfold is_factor. destruct (is_scored node); simpl; [|done].
  destruct (is_observed node || negb (replay_skipped node)); simpl; [|done].
  by destruct (shares_scale _ node).
Qed.

Lemma terms_after_log_measures (l : Trace) : log_measures (terms_after l) = measures_of l.
Proof.
  induction l as [|[key node] l IH] using rev_ind; [done|].
  rewrite terms_after_snoc, visit_log_measures, IH.
  unfold measures_of. rewrite omap_app. by f_equal.
Qed.

(** ** The plate-to-step dictionary *)

Lemma registered_step_snoc (l : Trace) key node plate :
  registered_step (l ++ [(key, node)]) plate
  = if bool_decide (type node = "markov_chain") && bool_decide (name node = plate)
    then Some (value node) else registered_step l plate.
Proof.
  unfold registered_step. rewrite omap_app, last_app. simpl.
  by destruct (_ && _).
Qed.

Lemma terms_after_plate_to_step (l : Trace) plate :
  plate_to_step (terms_after l) !! plate = registered_step l plate.
Proof.
  induction l as [|[key node] l IH] using rev_ind; [done|].
  rewrite terms_after_snoc, visit_plate_to_step, registered_step_snoc.
  destruct (bool_decide (type node = "markov_chain")); simpl; [|done].
  rewrite lookup_insert. case_decide as Hnm.
  - by rewrite bool_decide_eq_true_2.
  - by rewrite bool_decide_eq_false_2.
Qed.

Lemma add_plates_lookup (terms : Terms) plate :
  plate_to_step (add_plates terms) !! plate
  = match plate_to_step terms !! plate with
    | Some step => Some step
    | None => if decide (plate ∈ plate_vars terms) then Some [] else None
    end.
Proof.
  unfold add_plates. simpl. rewrite lookup_union.
  set (fresh := set_to_map _ _).
  assert (Hfresh : ∀ step, fresh !! plate = Some step
            ↔ plate ∈ plate_vars terms
              ∧ step = default [] (plate_to_step terms !! plate)).
  { intros step. unfold fresh.
    rewrite lookup_set_to_map by (by intros ? ? _ _ [=]).
    split.
    - by intros (p & Hp & [= -> ->]).
    - intros [Hp ->]. by exists plate. }
  destruct (fresh !! plate) as [step|] eqn:Hlk.
  - destruct (proj1 (Hfresh step) eq_refl) as [Hin ->].
    destruct (plate_to_step terms !! plate); simpl; [done|].
    by rewrite decide_True.
  - destruct (plate_to_step terms !! plate) as [step|] eqn:Hpts; simpl; [done|].
    case_decide as Hin; [|done].
    assert (None = Some ([] : Step)) as Habs; [|done].
    by apply Hfresh.
Qed.

(** * The claims about [terms_from_trace] *)

(** ** Shared scale (C1) *)

(** C1, as stated, fails on [two_scales_model]: the observations [x1] and
    [x2] both qualify as shared-scale sites, with scales 2 and 3, and
    [terms_from_trace] returns a bundle all the same, whose shared scale
    is 3, the scale of the later of the two sites; neither factor has
    been multiplied by its scale. *)
Lemma two_candidates_accepted :
  candidates two_scales_model = [2%Q; 3%Q]
  ∧ scale (terms_from_trace two_scales_model).1 = Number 3
  ∧ log_factors (terms_from_trace two_scales_model).1
    = [funsor_log_prob (funsor site_x1); funsor_log_prob (funsor site_x2)].
Proof. split; [|split]; vm_compute; reflexivity. Qed.

(** C1 (amended): for every trace with two or more sites that qualify as
    shared-scale sites, [terms_from_trace] returns a bundle whose shared
    [scale] is the scale of the last qualifying site in trace order. *)
Theorem shared_scale_is_last_candidate (tr : Trace) :
  2 ≤ length (candidates tr) →
  ∃ q, last (candidates tr) = Some q
       ∧ scale (terms_from_trace tr).1 = Number q.
Proof.
  intros Hlen.
  destruct (last (candidates tr)) as [q|] eqn:Hlast.
  - exists q. split; [done|].
    rewrite terms_from_trace_fst. simpl.
    by rewrite terms_after_scale, Hlast.
  - apply last_None in Hlast. rewrite Hlast in Hlen. simpl in Hlen. lia.
Qed.

Lemma shared_scale_is_last_candidate_witness :
  ∃ q, last (candidates two_scales_model) = Some q
       ∧ scale (terms_from_trace two_scales_model).1 = Number q.
Proof.
  apply (shared_scale_is_last_candidate two_scales_model).
  vm_compute. lia.
Defined.

(** ** The trace after the call (C6) *)

Lemma same_but_log_prob_refl node : same_but_log_prob node node.
Proof. by repeat split. Qed.

Lemma same_but_log_prob_set node lp : same_but_log_prob node (set_log_prob node lp).
Proof. by repeat split. Qed.

(** C6, as stated, fails on [scaled_observation]: the log-probability of
    the site [x] is [-2] before the call and [-6] after it. *)
Lemma trace_is_written_to :
  (terms_from_trace scaled_observation).2 ≠ scaled_observation
  ∧ (λ kn : string * Node, number_value (funsor_log_prob (funsor kn.2)))
      <$> scaled_observation = [Some (-2)%Q]
  ∧ (λ kn : string * Node, number_value (funsor_log_prob (funsor kn.2)))
      <$> (terms_from_trace scaled_observation).2 = [Some (-6)%Q].
Proof.
  split; [|split]; [|reflexivity..].
  intros Heq.
  apply (f_equal (fmap (λ kn : string * Node,
                          number_value (funsor_log_prob (funsor kn.2))))) in Heq.
  vm_compute in Heq. discriminate Heq.
Qed.

(** C6 (amended): [terms_from_trace] keeps the sites of the trace, their
    order and their keys, and every field of every node record except
    [funsor.log_prob]; the [funsor.log_prob] of a scored sample site that
    does not qualify as shared-scale site is replaced by its product with
    the site's scale, and every other [funsor.log_prob] is unchanged. *)
Theorem trace_frame (tr : Trace) (i : nat) (key : string) (node : Node) :
  tr !! i = Some (key, node) →
  length (terms_from_trace tr).2 = length tr
  ∧ ∃ node', (terms_from_trace tr).2 !! i = Some (key, node')
      ∧ same_but_log_prob node node'
      ∧ funsor_log_prob (funsor node')
        = if is_scored node && negb (qualifies tr i)
          then Binary mul (funsor_log_prob (funsor node))
                          (Number (funsor_scale (funsor node)))
          else funsor_log_prob (funsor node).
Proof.
  intros Hi. split; [apply terms_from_trace_length|].
  rewrite (node_after _ _ _ _ Hi).
  destruct (is_scored node && negb (qualifies tr i));
    eexists; (split; [reflexivity|]); split; try reflexivity.
  - apply same_but_log_prob_set.
  - apply same_but_log_prob_refl.
Qed.

Lemma trace_frame_witness :
  length (terms_from_trace scaled_observation).2 = length scaled_observation
  ∧ ∃ node', (terms_from_trace scaled_observation).2 !! 0 = Some ("x", node')
      ∧ same_but_log_prob
          (sample_site "x" true false false None (Number 7) (Number (-2)) 3 []) node'
      ∧ funsor_log_prob (funsor node') = Binary mul (Number (-2)) (Number 3).
Proof.
  apply (trace_frame scaled_observation 0 "x"
           (sample_site "x" true false false None (Number 7) (Number (-2)) 3 [])).
  reflexivity.
Defined.

(** ** Measures and measure variables (C7) *)

(** C7: the log-measures of the bundle are those of the scored sample
    sites that carry one, in trace order; visiting the site at position
    [i] appends its log-measure and unions into [measure_vars] exactly
    its contribution, (inputs of its enumerated value ∪ its name) minus
    the plate variables accumulated up to and including that site; and
    [measure_vars] of the bundle is the union of the contributions over
    the whole trace. *)
Theorem measure_extraction (tr : Trace) :
  log_measures (terms_from_trace tr).1 = measures_of tr
  ∧ measure_vars (terms_from_trace tr).1 = ⋃ (contribution tr <$> seq 0 (length tr))
  ∧ ∀ i key node, tr !! i = Some (key, node) →
      let before := terms_after (take i tr) in
      let after := terms_after (take (S i) tr) in
      log_measures after
      = log_measures before
        ++ option_list (if is_scored node then funsor_log_measure (funsor node) else None)
      ∧ measure_vars after = measure_vars before ∪ contribution tr i
      ∧ contribution tr i
        = if is_scored node && bool_decide (is_Some (funsor_log_measure (funsor node)))
          then (input_names (funsor_value (funsor node)) ∪ {[key]}) ∖ plate_vars after
          else ∅.
Proof.
  rewrite terms_from_trace_fst. simpl.
  split; [apply terms_after_log_measures|].
  split; [apply terms_after_measure_vars|].
  intros i key node Hi. simpl.
  pose proof (lookup_lt_Some _ _ _ Hi) as Hlt.
  rewrite <- !(terms_after_take_S _ _ _ _ Hi).
  split; [apply visit_log_measures|].
  split.
  - rewrite (terms_after_take_S _ _ _ _ Hi).
    rewrite !terms_after_take_measure_vars by lia.
    apply measure_vars_upto_S.
  - rewrite (terms_after_take_S _ _ _ _ Hi), terms_after_plate_vars.
    unfold contribution, site_measure_vars. rewrite Hi.
    destruct (is_scored node); simpl; [|done].
    by destruct (funsor_log_measure (funsor node)).
Qed.

Lemma measure_extraction_witness :
  let before := terms_after (take 1 chain_trace) in
  let after := terms_after (take 2 chain_trace) in
  log_measures after
  = log_measures before ++ [tensor 0 [("p", 3); ("t", 4); ("z", 2)]]
  ∧ measure_vars after = measure_vars before ∪ contribution chain_trace 1
  ∧ contribution chain_trace 1 = {["z"]}.
Proof.
  pose proof (proj2 (proj2 (measure_extraction chain_trace)) 1 "z" _ eq_refl) as H.
  simpl in H. destruct H as (Hlm & Hmv & Hc).
  split; [exact Hlm|]. split; [exact Hmv|].
  vm_compute. reflexivity.
Defined.

(** ** Factors (C8) *)

(** C8: the factors of the bundle are the log-probabilities of the scored
    sample sites that are observed or were not skipped during replay, in
    trace order; visiting a scored sample site appends its
    log-probability exactly when the site is observed or its
    [replay_skipped] flag is false; visiting a [markov_chain] record
    changes neither [log_factors] nor [log_measures]. *)
Theorem factor_extraction (tr : Trace) :
  log_factors (terms_from_trace tr).1 = factors_of tr
  ∧ (∀ terms key node, is_scored node = true →
       log_factors (visit terms key node).1
       = log_factors terms
         ++ (if is_observed node || negb (replay_skipped node)
             then [funsor_log_prob (funsor (visit terms key node).2)] else []))
  ∧ (∀ terms key node, type node = "markov_chain" →
       log_factors (visit terms key node).1 = log_factors terms
       ∧ log_measures (visit terms key node).1 = log_measures terms).
Proof.
  split; [|split].
  - rewrite terms_from_trace_fst. simpl. apply terms_after_log_factors.
  - intros terms key node Hs.
    rewrite visit_log_factors. unfold is_factor. by rewrite Hs.
  - intros terms key node Hty.
    rewrite visit_log_factors, visit_log_measures. unfold is_factor.
    rewrite (markov_chain_not_scored _ Hty). simpl. by rewrite !app_nil_r.
Qed.

Lemma factor_extraction_witness :
  log_factors (visit initial_terms "x"
                 (sample_site "x" true false false None (Number 7) (Number (-2)) 3 [])).1
  = [Binary mul (Number (-2)) (Number 3)]
  ∧ log_factors (visit initial_terms "t" (markov_chain_record "t" [["a"; "b"]])).1 = []
  ∧ log_measures (visit initial_terms "t" (markov_chain_record "t" [["a"; "b"]])).1 = [].
Proof.
  destruct (factor_extraction scaled_observation) as (_ & Hscored & Hchain).
  split.
  - apply (Hscored initial_terms "x"
             (sample_site "x" true false false None (Number 7) (Number (-2)) 3 [])).
    reflexivity.
  - apply (Hchain initial_terms "t" (markov_chain_record "t" [["a"; "b"]])).
    reflexivity.
Defined.

(** ** Plates and steps (C9) *)

(** C9: every plate name in [plate_vars] of the returned bundle has an
    entry in [plate_to_step]: the descriptor registered by a
    [markov_chain] record when there is one, the empty descriptor
    otherwise; and a registered descriptor is in the bundle whatever the
    plate variables are. *)
Theorem plate_to_step_total (tr : Trace) (plate : string) :
  plate ∈ plate_vars (terms_from_trace tr).1 →
  plate_to_step (terms_from_trace tr).1 !! plate
  = Some (default [] (registered_step tr plate))
  ∧ ∀ other step, registered_step tr other = Some step →
      plate_to_step (terms_from_trace tr).1 !! other = Some step.
Proof.
  rewrite terms_from_trace_fst. intros Hin. split.
  - rewrite add_plates_lookup, terms_after_plate_to_step.
    destruct (registered_step tr plate); simpl; [done|].
    by rewrite decide_True.
  - intros other step Hreg.
    by rewrite add_plates_lookup, terms_after_plate_to_step, Hreg.
Qed.

Lemma plate_to_step_total_witness :
  (plate_to_step (terms_from_trace chain_trace).1 !! "p" = Some []
   ∧ ∀ other step, registered_step chain_trace other = Some step →
       plate_to_step (terms_from_trace chain_trace).1 !! other = Some step)
  ∧ plate_to_step (terms_from_trace chain_trace).1 !! "t"
    = Some [["z_0"; "z_prev"; "z_curr"]].
Proof.
  assert (Hp : "p" ∈ plate_vars (terms_from_trace chain_trace).1)
    by (vm_compute; reflexivity).
  assert (Ht : "t" ∈ plate_vars (terms_from_trace chain_trace).1)
    by (vm_compute; reflexivity).
  split.
  - exact (plate_to_step_total chain_trace "p" Hp).
  - exact (proj1 (plate_to_step_total chain_trace "t" Ht)).
Defined.

(** ** Adopting a scale or applying it (C10) *)

(** C10: at a scored sample site the loop does exactly one of two things.
    If the site qualifies as shared-scale site, its scale becomes the
    shared [scale] of the bundle and its log-probability is left as it
    was; otherwise the shared [scale] is left as it was and the
    log-probability becomes its product with the site's scale.  The
    factor the site adds to [log_factors], if it adds one, is the
    log-probability in that state. *)
Theorem scale_adopted_or_applied (tr : Trace) (i : nat) (key : string) (node : Node) :
  tr !! i = Some (key, node) →
  is_scored node = true →
  ∃ node', (terms_from_trace tr).2 !! i = Some (key, node')
    ∧ factor_at tr i
      = (if is_factor node then Some (funsor_log_prob (funsor node')) else None)
    ∧ ((qualifies tr i = true
        ∧ scale (terms_after (take (S i) tr)) = Number (funsor_scale (funsor node))
        ∧ funsor_log_prob (funsor node') = funsor_log_prob (funsor node))
       ∨ (qualifies tr i = false
          ∧ scale (terms_after (take (S i) tr)) = scale (terms_after (take i tr))
          ∧ funsor_log_prob (funsor node')
            = Binary mul (funsor_log_prob (funsor node))
                         (Number (funsor_scale (funsor node))))).
Proof.
  intros Hi Hs.
  rewrite (node_after _ _ _ _ Hi), Hs. simpl.
  eexists. split; [reflexivity|].
  rewrite <- (terms_after_take_S _ _ _ _ Hi), visit_scale.
  rewrite <- (qualifies_spec _ _ _ _ Hi).
  unfold factor_at. rewrite Hi. simpl.
  destruct (qualifies tr i); simpl.
  - split; [done|]. by left.
  - split; [done|]. by right.
Qed.

Lemma scale_adopted_or_applied_witness :
  ∃ node', (terms_from_trace two_scales_model).2 !! 1 = Some ("x1", node')
    ∧ factor_at two_scales_model 1 = Some (funsor_log_prob (funsor node'))
    ∧ ((qualifies two_scales_model 1 = true
        ∧ scale (terms_after (take 2 two_scales_model)) = Number 2
        ∧ funsor_log_prob (funsor node') = funsor_log_prob (funsor site_x1))
       ∨ (qualifies two_scales_model 1 = false
          ∧ scale (terms_after (take 2 two_scales_model))
            = scale (terms_after (take 1 two_scales_model))
          ∧ funsor_log_prob (funsor node')
            = Binary mul (funsor_log_prob (funsor site_x1)) (Number 2))).
Proof.
  apply (scale_adopted_or_applied two_scales_model 1 "x1" site_x1); reflexivity.
Defined.

(** * Properties of the two losses *)

Section loss_facts.
Context {E : Engine}.
Implicit Types (guide_terms model_terms : Terms) (log : list Call).

(** ** Running the pieces *)

Lemma bind_calling {A B} (c : Call) (a : A) (k : A → Eff B) log :
  eff_bind (calling c a) k log = k a (log ++ [c]).
Proof. done. Qed.

Lemma bind_assoc_run {A B} (m : Eff A) (k : A → Eff B) log :
  eff_bind m k log
  = match m log with
    | (Return a, log') => k a log'
    | (Raise e, log') => (Raise e, log')
    end.
Proof. done. Qed.

Lemma enum_costs_run guide_terms model_terms log :
  enum_costs guide_terms model_terms log
  = (Return (enum_cost_terms guide_terms model_terms),
     log ++ [call_partial_sum_product logaddexp add
               (log_measures model_terms ++ contracted_factors model_terms)
               (plate_vars model_terms) (measure_vars model_terms)]).
Proof.
  unfold enum_costs, enum_cost_terms. rewrite bind_calling. unfold eff_ret.
  by rewrite <- (assoc_L (++)).
Qed.

Lemma expected_cost_built guide_terms model_terms (cost : Funsor) :
  reduce add
    (Integrate (guide_marginal guide_terms model_terms cost) cost
               (measure_vars guide_terms ∩ input_names cost))
    (Some (all_plates guide_terms model_terms ∩ input_names cost))
  = expected_cost guide_terms model_terms cost.
Proof.
  unfold expected_cost, reduce. simpl.
  by rewrite (comm_L (∩) (input_names cost)).
Qed.

Lemma enum_assemble_from guide_terms model_terms (costs : list Funsor) elbo log :
  for_each
    (λ elbo cost,
       log_prob ⇐ calling (marginal_call guide_terms model_terms cost)
                          (guide_marginal guide_terms model_terms cost);;
       eff_ret (Binary add elbo
                  (reduce add
                     (Integrate log_prob cost (measure_vars guide_terms ∩ input_names cost))
                     (Some (all_plates guide_terms model_terms ∩ input_names cost)))))
    elbo costs log
  = (Return (foldl (λ elbo f, Binary add elbo (expected_cost guide_terms model_terms f))
               elbo costs),
     log ++ (marginal_call guide_terms model_terms <$> costs)).
Proof.
  revert elbo log. induction costs as [|cost costs IH]; intros elbo log.
  - simpl. by rewrite app_nil_r.
  - cbn [for_each]. rewrite bind_assoc_run, bind_calling. unfold eff_ret at 1.
    rewrite IH, expected_cost_built, fmap_cons. cbn [foldl].
    by rewrite <- (assoc_L (++)).
Qed.

Lemma enum_assemble_run guide_terms model_terms (costs : list Funsor) log :
  enum_assemble guide_terms model_terms costs log
  = (Return (sum_of_contributions (expected_cost guide_terms model_terms) costs),
     log ++ (marginal_call guide_terms model_terms <$> costs)).
Proof. apply enum_assemble_from. Qed.

Lemma markov_costs_and_marginals_run guide_terms model_terms log :
  markov_costs_and_marginals guide_terms model_terms log
  = (Return (markov_cost_terms guide_terms model_terms,
             markov_marginals guide_terms model_terms),
     log ++ [call_modified_partial_sum_product logaddexp add
               (log_measures model_terms ++ contracted_factors model_terms)
               (plate_to_step model_terms)
               (measure_vars model_terms ∪ markov_dims model_terms);
             call_modified_partial_sum_product logaddexp add
               (markov_targets guide_terms model_terms)
               (plate_to_step guide_terms)
               (measure_vars guide_terms ∪ markov_dims guide_terms);
             call_apply_optimizer (markov_logzq guide_terms model_terms);
             call_adjoint logaddexp add
               (apply_optimizer (markov_logzq guide_terms model_terms))
               (markov_targets guide_terms model_terms)]).
Proof.
  unfold markov_costs_and_marginals. rewrite !bind_calling. unfold eff_ret.
  f_equal.
  - unfold markov_cost_terms. by rewrite <- (assoc_L (++)).
  - by rewrite <- !(assoc_L (++)).
Qed.

(** Without sequential plates the Markov path hands its elimination
    routine the set the plate-parallel path hands its own: the measure
    variables. *)
Lemma markov_dims_empty (terms : Terms) :
  (∀ plate step, plate_to_step terms !! plate = Some step → step = []) →
  measure_vars terms ∪ markov_dims terms = measure_vars terms.
Proof.
  intros Hempty.
  assert (markov_dims terms = ∅) as ->; [|by rewrite (right_id_L ∅ (∪))].
  unfold markov_dims. apply dom_empty_iff_L, map_empty_filter, map_Forall_lookup.
  intros plate step Hstep Hne. simpl in Hne. by apply Hne, (Hempty plate).
Qed.

(** ** Looking a marginal up *)

Lemma next_marginal_run (log_qs : list Funsor) (cost : Funsor) log :
  next_marginal log_qs cost log
  = match first_marginal log_qs cost with
    | Some log_q => (Return log_q, log)
    | None => (Raise StopIteration, log)
    end.
Proof.
  unfold next_marginal, first_marginal.
  induction log_qs as [|log_q log_qs IH]; [done|].
  rewrite filter_cons. simpl. case_decide; [done|].
  rewrite IH. by destruct (list_find _ log_qs) as [[? ?]|].
Qed.

Lemma first_marginal_Some (log_qs : list Funsor) (cost pick : Funsor) :
  first_marginal log_qs cost = Some pick ↔ is_first_match log_qs cost pick.
Proof.
  unfold first_marginal, is_first_match. split.
  - destruct (list_find _ log_qs) as [[i q]|] eqn:Hfind; [|done].
    simpl. intros [= ->]. apply list_find_Some in Hfind as (Hi & Hq & Hbefore).
    exists i. eauto.
  - intros (i & Hi & Hq & Hbefore).
    assert (list_find (λ log_q, inputs log_q = inputs cost) log_qs = Some (i, pick))
      as ->; [|done].
    apply list_find_Some. eauto.
Qed.

Lemma first_marginal_None (log_qs : list Funsor) (cost : Funsor) :
  first_marginal log_qs cost = None
  ↔ ∀ log_q, log_q ∈ log_qs → inputs log_q ≠ inputs cost.
Proof.
  unfold first_marginal. rewrite fmap_None, list_find_None, Forall_forall. done.
Qed.

Lemma markov_assemble_from guide_terms (log_qs costs : list Funsor) elbo log :
  for_each
    (λ elbo cost,
       log_prob ⇐ next_marginal log_qs cost;;
       eff_ret (Binary add elbo
                  (reduce add
                     (Integrate log_prob cost
                        (input_names cost ∖ dom (plate_to_step guide_terms))) None)))
    elbo costs log
  = match mapM (first_marginal log_qs) costs with
    | Some picks =>
        (Return (foldl (λ elbo cp, Binary add elbo
                                     (markov_expected_cost guide_terms cp.1 cp.2))
                       elbo (zip costs picks)), log)
    | None => (Raise StopIteration, log)
    end.
Proof.
  revert elbo. induction costs as [|cost costs IH]; intros elbo; [done|].
  cbn [for_each mapM]. rewrite bind_assoc_run. cbn beta.
  rewrite bind_assoc_run, next_marginal_run.
  destruct (first_marginal log_qs cost) as [pick|]; simpl; [|done].
  unfold eff_ret at 1. rewrite IH.
  by destruct (mapM (first_marginal log_qs) costs).
Qed.

Lemma markov_assemble_run guide_terms (costs log_qs : list Funsor) log :
  markov_assemble guide_terms costs log_qs log
  = match mapM (first_marginal log_qs) costs with
    | Some picks => (Return (markov_sum guide_terms (zip costs picks)), log)
    | None => (Raise StopIteration, log)
    end.
Proof. apply markov_assemble_from. Qed.

End loss_facts.

(** * The claims about the two losses *)

Section loss_claims.
Context {E : Engine}.

(** ** Assembly on the plate-parallel path (C2) *)

(** C2: [TraceEnum_ELBO.differentiable_loss] builds [elbo] as the sum,
    over all cost terms [f], of the contribution of [f]: the marginal is
    [sum_product] of the guide's log-measures with [eliminate] = (guide
    plates ∪ model plates ∪ guide measure variables) minus the inputs of
    [f]; the expectation is [Integrate(log_prob, f, S)] with [S] the
    guide's measure variables among the inputs of [f], add-reduced over
    the plates among the inputs of [f].  One [sum_product] call is made
    per cost, and the loss is the negated, optimized [elbo]. *)
Theorem plate_parallel_assembly (guide_tr model_tr : Trace) :
  let guide_terms := (terms_from_trace guide_tr).1 in
  let model_terms := (terms_from_trace model_tr).1 in
  let costs := enum_cost_terms guide_terms model_terms in
  let plates := plate_vars guide_terms ∪ plate_vars model_terms in
  let elbo := sum_of_contributions (expected_cost guide_terms model_terms) costs in
  (∀ f, expected_cost guide_terms model_terms f
        = Reduce add
            (Integrate
               (sum_product logaddexp add (log_measures guide_terms) plates
                  ((plates ∪ measure_vars guide_terms) ∖ input_names f))
               f (measure_vars guide_terms ∩ input_names f))
            (input_names f ∩ plates))
  ∧ (TraceEnum_ELBO_elbo guide_tr model_tr []).1 = Return elbo
  ∧ filter is_sum_product (calls_of (TraceEnum_ELBO_elbo guide_tr model_tr))
    = (λ f, call_sum_product logaddexp add (log_measures guide_terms) plates
              ((plates ∪ measure_vars guide_terms) ∖ input_names f)) <$> costs
  ∧ (TraceEnum_ELBO_differentiable_loss guide_tr model_tr []).1
    = Return (Unary neg (apply_optimizer elbo)).
Proof.
  intros guide_terms model_terms costs plates elbo.
  assert (Hrun : TraceEnum_ELBO_elbo guide_tr model_tr []
                 = (Return elbo,
                    call_partial_sum_product logaddexp add
                      (log_measures model_terms ++ contracted_factors model_terms)
                      (plate_vars model_terms) (measure_vars model_terms)
                    :: (marginal_call guide_terms model_terms <$> costs))).
  { unfold TraceEnum_ELBO_elbo. rewrite bind_assoc_run, enum_costs_run.
    by rewrite enum_assemble_run. }
  split; [done|]. split; [by rewrite Hrun|]. split.
  - unfold calls_of. rewrite Hrun. simpl. rewrite filter_cons_False by (simpl; auto).
    clear. induction costs as [|f costs IH]; [done|].
    rewrite !fmap_cons, filter_cons_True by done. by rewrite IH.
  - unfold TraceEnum_ELBO_differentiable_loss.
    by rewrite bind_assoc_run, Hrun.
Qed.

(** ** Looking marginals up on the Markov path (C3) *)

(** C3 (amended): in [TraceMarkovEnum_ELBO.differentiable_loss] the
    marginal used for a cost term (contracted model cost, uncontracted
    model cost or negated guide log-density) is the first marginal
    returned by the adjoint pass whose inputs equal, as a mapping from
    variable name to domain, the inputs of the cost; several marginals
    may match.  When every cost has a matching marginal the loss is
    returned; when some cost has none, the loss computation raises at
    once, with no further call to the engine. *)
Theorem marginal_lookup (guide_tr model_tr : Trace) :
  let guide_terms := (terms_from_trace guide_tr).1 in
  let model_terms := (terms_from_trace model_tr).1 in
  let costs := markov_cost_terms guide_terms model_terms in
  let log_qs := markov_marginals guide_terms model_terms in
  let loss := TraceMarkovEnum_ELBO_differentiable_loss guide_tr model_tr [] in
  ∃ log,
    markov_costs_and_marginals guide_terms model_terms [] = (Return (costs, log_qs), log)
    ∧ ((∀ cost, cost ∈ costs → ∃ log_q, log_q ∈ log_qs ∧ inputs log_q = inputs cost) →
       ∃ picks,
         Forall2 (is_first_match log_qs) costs picks
         ∧ loss = (Return (Unary neg (apply_optimizer
                                        (markov_sum guide_terms (zip costs picks)))),
                   log ++ [call_apply_optimizer
                             (markov_sum guide_terms (zip costs picks))]))
    ∧ ((∃ cost, cost ∈ costs ∧ ∀ log_q, log_q ∈ log_qs → inputs log_q ≠ inputs cost) →
       loss = (Raise StopIteration, log)).
Proof.
  intros guide_terms model_terms costs log_qs loss.
  pose proof (markov_costs_and_marginals_run guide_terms model_terms []) as Hrun.
  match type of Hrun with _ = (_, ?l) => set (log := l) in * end.
  exists log. split; [exact Hrun|].
  assert (Hloss : ∀ r,
            match mapM (first_marginal log_qs) costs with
            | Some picks =>
                (Return (Unary neg (apply_optimizer
                                      (markov_sum guide_terms (zip costs picks)))),
                 log ++ [call_apply_optimizer
                           (markov_sum guide_terms (zip costs picks))])
            | None => (Raise StopIteration, log)
            end = r → loss = r).
  { intros r <-. unfold loss, TraceMarkovEnum_ELBO_differentiable_loss.
    rewrite bind_assoc_run. fold guide_terms model_terms. rewrite Hrun.
    cbn [fst snd]. rewrite bind_assoc_run, markov_assemble_run.
    fold costs log_qs. by destruct (mapM (first_marginal log_qs) costs). }
  split.
  - intros Hall.
    destruct (mapM (first_marginal log_qs) costs) as [picks|] eqn:Hpicks.
    + exists picks. split; [|by apply Hloss].
      apply mapM_Some in Hpicks.
      eapply Forall2_impl; [exact Hpicks|].
      intros cost pick. apply first_marginal_Some.
    + apply mapM_None, Exists_exists in Hpicks as (cost & Hcost & Hnone).
      destruct (Hall cost Hcost) as (log_q & Hin & Heq).
      by destruct (proj1 (first_marginal_None log_qs cost) Hnone log_q Hin).
  - intros (cost & Hcost & Hnone).
    assert (mapM (first_marginal log_qs) costs = None) as Hpicks.
    { apply mapM_None, Exists_exists. exists cost. split; [done|].
      by apply first_marginal_None. }
    apply Hloss. by rewrite Hpicks.
Qed.

(** ** The elimination sets (C4) *)

Lemma markov_dims_spec (terms : Terms) (plate : string) :
  plate ∈ markov_dims terms
  ↔ ∃ step, plate_to_step terms !! plate = Some step ∧ step ≠ [].
Proof.
  unfold markov_dims. rewrite elem_of_dom. unfold is_Some.
  setoid_rewrite map_lookup_filter_Some. naive_solver.
Qed.

Lemma markov_loss_log (guide_tr model_tr : Trace) :
  let guide_terms := (terms_from_trace guide_tr).1 in
  let model_terms := (terms_from_trace model_tr).1 in
  ∃ rest,
    calls_of (TraceMarkovEnum_ELBO_differentiable_loss guide_tr model_tr)
    = [call_modified_partial_sum_product logaddexp add
         (log_measures model_terms ++ contracted_factors model_terms)
         (plate_to_step model_terms)
         (measure_vars model_terms ∪ markov_dims model_terms);
       call_modified_partial_sum_product logaddexp add
         (markov_targets guide_terms model_terms)
         (plate_to_step guide_terms)
         (measure_vars guide_terms ∪ markov_dims guide_terms);
       call_apply_optimizer (markov_logzq guide_terms model_terms);
       call_adjoint logaddexp add
         (apply_optimizer (markov_logzq guide_terms model_terms))
         (markov_targets guide_terms model_terms)] ++ rest
    ∧ (rest = [] ∨ ∃ elbo, rest = [call_apply_optimizer elbo]).
Proof.
  intros guide_terms model_terms.
  unfold calls_of, TraceMarkovEnum_ELBO_differentiable_loss.
  fold guide_terms model_terms.
  rewrite bind_assoc_run, markov_costs_and_marginals_run.
  cbn [fst snd]. rewrite bind_assoc_run, markov_assemble_run.
  destruct (mapM _ _) as [picks|].
  - eexists. split; [reflexivity|]. right. by eexists.
  - exists []. split; [by rewrite app_nil_r|]. by left.
Qed.

Lemma enum_loss_log (guide_tr model_tr : Trace) :
  let guide_terms := (terms_from_trace guide_tr).1 in
  let model_terms := (terms_from_trace model_tr).1 in
  ∃ elbo,
    calls_of (TraceEnum_ELBO_differentiable_loss guide_tr model_tr)
    = call_partial_sum_product logaddexp add
        (log_measures model_terms ++ contracted_factors model_terms)
        (plate_vars model_terms) (measure_vars model_terms)
      :: (marginal_call guide_terms model_terms
            <$> enum_cost_terms guide_terms model_terms)
      ++ [call_apply_optimizer elbo].
Proof.
  intros guide_terms model_terms. eexists.
  unfold calls_of, TraceEnum_ELBO_differentiable_loss, TraceEnum_ELBO_elbo.
  fold guide_terms model_terms.
  rewrite !bind_assoc_run, enum_costs_run, enum_assemble_run.
  reflexivity.
Qed.

Lemma filter_marginal_calls (P : Call → bool) guide_terms model_terms
    (costs : list Funsor) :
  (∀ f, P (marginal_call guide_terms model_terms f) = false) →
  filter P (marginal_call guide_terms model_terms <$> costs) = [].
Proof.
  intros HP. induction costs as [|f costs IH]; [done|].
  rewrite fmap_cons, filter_cons_False; [done|]. rewrite HP. by intros [].
Qed.

(** C4 (amended): [TraceMarkovEnum_ELBO.differentiable_loss] calls
    [modified_partial_sum_product] twice, with [eliminate] = measure
    variables united with exactly the plates whose step descriptor is
    non-empty (of the model for the contraction, of the guide for
    [logzq]), and never calls [partial_sum_product];
    [TraceEnum_ELBO.differentiable_loss] calls [partial_sum_product]
    once, with [eliminate] = the model's measure variables, and never
    calls [modified_partial_sum_product].  A plate with an empty step
    descriptor is in one of these [eliminate] sets only if it is itself
    among the measure variables.  The [sum_product] calls of the
    plate-parallel path eliminate (all plates ∪ guide measure variables)
    minus the inputs of the cost. *)
Theorem elimination_sets (guide_tr model_tr : Trace) :
  let guide_terms := (terms_from_trace guide_tr).1 in
  let model_terms := (terms_from_trace model_tr).1 in
  let markov := calls_of (TraceMarkovEnum_ELBO_differentiable_loss guide_tr model_tr) in
  let parallel := calls_of (TraceEnum_ELBO_differentiable_loss guide_tr model_tr) in
  filter is_modified_partial_sum_product markov
  = [call_modified_partial_sum_product logaddexp add
       (log_measures model_terms ++ contracted_factors model_terms)
       (plate_to_step model_terms)
       (measure_vars model_terms ∪ markov_dims model_terms);
     call_modified_partial_sum_product logaddexp add
       (markov_targets guide_terms model_terms)
       (plate_to_step guide_terms)
       (measure_vars guide_terms ∪ markov_dims guide_terms)]
  ∧ filter is_partial_sum_product markov = []
  ∧ filter is_partial_sum_product parallel
    = [call_partial_sum_product logaddexp add
         (log_measures model_terms ++ contracted_factors model_terms)
         (plate_vars model_terms) (measure_vars model_terms)]
  ∧ filter is_modified_partial_sum_product parallel = []
  ∧ filter is_sum_product parallel
    = (λ f, call_sum_product logaddexp add (log_measures guide_terms)
              (plate_vars guide_terms ∪ plate_vars model_terms)
              ((plate_vars guide_terms ∪ plate_vars model_terms
                ∪ measure_vars guide_terms) ∖ input_names f))
        <$> enum_cost_terms guide_terms model_terms
  ∧ (∀ terms plate,
       plate ∈ measure_vars terms ∪ markov_dims terms
       ↔ plate ∈ measure_vars terms
         ∨ ∃ step, plate_to_step terms !! plate = Some step ∧ step ≠ [])
  ∧ (∀ terms plate,
       ordinary_plate terms plate →
       plate ∈ measure_vars terms ∪ markov_dims terms →
       plate ∈ measure_vars terms).
Proof.
  intros guide_terms model_terms markov parallel.
  destruct (markov_loss_log guide_tr model_tr) as (rest & Hmarkov & Hrest).
  destruct (enum_loss_log guide_tr model_tr) as (elbo & Hparallel).
  fold guide_terms model_terms markov in Hmarkov.
  fold guide_terms model_terms parallel in Hparallel.
  rewrite Hmarkov, Hparallel.
  split_and!.
  - by destruct Hrest as [-> | [? ->]].
  - by destruct Hrest as [-> | [? ->]].
  - rewrite filter_cons_True, filter_app by done.
    by rewrite filter_marginal_calls.
  - rewrite filter_cons_False, filter_app by (by intros []).
    by rewrite filter_marginal_calls.
  - rewrite filter_cons_False, filter_app by (by intros []).
    rewrite app_nil_r. generalize (enum_cost_terms guide_terms model_terms).
    intros costs. induction costs as [|f costs IH]; [done|].
    rewrite !fmap_cons, filter_cons_True by done. by rewrite IH.
  - intros terms plate. by rewrite elem_of_union, markov_dims_spec.
  - intros terms plate Hordinary [Hmv | Hdim]%elem_of_union; [done|].
    apply markov_dims_spec in Hdim as (step & Hstep & Hne).
    unfold ordinary_plate in Hordinary. congruence.
Qed.

End loss_claims.

(** ** The claims on the sample traces *)

(** C3, as stated, fails on a model with two observations outside every
    plate (and a guide without sites), run with [symbolic_engine]: the
    two cost terms have the same (empty) inputs, the adjoint pass returns
    one marginal per probe, so each cost is matched by two marginals, not
    by exactly one; the loss is returned all the same. *)
Lemma two_marginals_match :
  let guide_terms := (terms_from_trace []).1 in
  let model_terms := (terms_from_trace two_observations).1 in
  let costs := markov_cost_terms (E := symbolic_engine) guide_terms model_terms in
  let log_qs := markov_marginals (E := symbolic_engine) guide_terms model_terms in
  costs = [Binary mul (tensor 4 []) (Number 1); Binary mul (tensor 6 []) (Number 1)]
  ∧ matching_marginals log_qs <$> costs = [2; 2]
  ∧ ∃ loss, (TraceMarkovEnum_ELBO_differentiable_loss (E := symbolic_engine)
               [] two_observations []).1 = Return loss.
Proof.
  split; [reflexivity|]. split; [vm_compute; reflexivity|].
  eexists. vm_compute. reflexivity.
Qed.

Lemma marginal_lookup_witness :
  ∃ picks,
    Forall2 (is_first_match
               (markov_marginals (E := symbolic_engine)
                  (terms_from_trace []).1 (terms_from_trace two_observations).1))
            (markov_cost_terms (E := symbolic_engine)
               (terms_from_trace []).1 (terms_from_trace two_observations).1)
            picks
    ∧ (TraceMarkovEnum_ELBO_differentiable_loss (E := symbolic_engine)
         [] two_observations []).1
      = Return (Unary neg
                  (markov_sum (terms_from_trace []).1
                     (zip (markov_cost_terms (E := symbolic_engine)
                             (terms_from_trace []).1
                             (terms_from_trace two_observations).1) picks))).
Proof.
  destruct (marginal_lookup (E := symbolic_engine) [] two_observations)
    as (log & _ & Hfound & _).
  destruct Hfound as (picks & Hpicks & Hloss).
  - intros cost Hcost. exists (Tensor (array 0) ∅).
    split; [vm_compute; left|].
    vm_compute in Hcost. apply list_elem_of_In in Hcost.
    destruct Hcost as [<- | [<- | []]]; reflexivity.
  - exists picks. split; [exact Hpicks|]. by rewrite Hloss.
Defined.

(** C4, as stated, fails in its last part.  On [plated_guide] and
    [global_observation] the plate-parallel path calls [sum_product]
    with the ordinary plate [p] in [eliminate].  On [late_plate], where
    the value of [z] has the input [p] before the plate [p] is entered,
    [p] ends up among the measure variables, and both paths pass it in
    the [eliminate] set of their first elimination call. *)
Lemma ordinary_plate_eliminated :
  (ordinary_plate (terms_from_trace plated_guide).1 "p"
   ∧ existsb (eliminates "p")
       (filter is_sum_product
          (calls_of (TraceEnum_ELBO_differentiable_loss (E := symbolic_engine)
                       plated_guide global_observation))) = true)
  ∧ (ordinary_plate (terms_from_trace late_plate).1 "p"
     ∧ existsb (eliminates "p")
         (filter is_partial_sum_product
            (calls_of (TraceEnum_ELBO_differentiable_loss (E := symbolic_engine)
                         [] late_plate))) = true
     ∧ existsb (eliminates "p")
         (filter is_modified_partial_sum_product
            (calls_of (TraceMarkovEnum_ELBO_differentiable_loss (E := symbolic_engine)
                         [] late_plate))) = true).
Proof. repeat split; vm_compute; reflexivity. Qed.

Lemma elimination_sets_witness :
  ordinary_plate (terms_from_trace chain_trace).1 "p"
  ∧ "t" ∈ markov_dims (terms_from_trace chain_trace).1
  ∧ ("p" ∈ measure_vars (terms_from_trace chain_trace).1
           ∪ markov_dims (terms_from_trace chain_trace).1 →
     "p" ∈ measure_vars (terms_from_trace chain_trace).1).
Proof.
  assert (Hp : ordinary_plate (terms_from_trace chain_trace).1 "p")
    by (vm_compute; reflexivity).
  split; [exact Hp|]. split; [vm_compute; reflexivity|].
  destruct (elimination_sets (E := symbolic_engine) chain_trace chain_trace)
    as (_ & _ & _ & _ & _ & _ & Hord).
  exact (Hord (terms_from_trace chain_trace).1 "p" Hp).
Defined.

(** * Further properties of [terms_from_trace] *)

(** ** Helpers *)

Lemma terms_from_trace_plate_vars (tr : Trace) :
  plate_vars (terms_from_trace tr).1 = plates_of tr.
Proof. rewrite terms_from_trace_fst. simpl. apply terms_after_plate_vars. Qed.

Lemma terms_from_trace_measure_vars (tr : Trace) :
  measure_vars (terms_from_trace tr).1 = measure_vars_upto tr (length tr).
Proof. rewrite terms_from_trace_fst. simpl. apply terms_after_measure_vars. Qed.

Lemma elem_of_measure_vars_upto (tr : Trace) (k : nat) (x : string) :
  x ∈ measure_vars_upto tr k ↔ ∃ i, i < k ∧ x ∈ contribution tr i.
Proof.
  unfold measure_vars_upto. rewrite elem_of_union_list. split.
  - intros (X & (i & -> & Hi%elem_of_seq)%list_elem_of_fmap & Hx).
    exists i. split; [lia|done].
  - intros (i & Hi & Hx). exists (contribution tr i). split; [|done].
    apply list_elem_of_fmap. exists i. split; [done|].
    apply elem_of_seq. lia.
Qed.

Lemma contribution_names (tr : Trace) (i : nat) :
  contribution tr i = names_at tr i ∖ plates_of (take (S i) tr).
Proof.
  unfold contribution, names_at, site_measure_vars, site_names.
  destruct (tr !! i) as [[key node]|]; [|by rewrite difference_disjoint_L].
  destruct (is_scored node); [|by rewrite difference_disjoint_L].
  destruct (funsor_log_measure (funsor node)); [done|].
  by rewrite difference_disjoint_L.
Qed.

Lemma plates_of_take_subseteq (tr : Trace) (k : nat) :
  plates_of (take k tr) ⊆ plates_of tr.
Proof.
  rewrite <- (take_drop k tr) at 2. rewrite plates_of_app.
  apply union_subseteq_l.
Qed.

(** Reading a list by position or by traversal. *)
Lemma omap_by_position {A B} (g : A → option B) (l : list A) :
  omap (λ i, x ← l !! i; g x) (seq 0 (length l)) = omap g l.
Proof.
  induction l as [|x l IH] using rev_ind; [done|].
  rewrite length_app, Nat.add_1_r, seq_S, !omap_app. f_equal.
  - rewrite <- IH. apply omap_seq_ext. intros i Hi.
    by rewrite lookup_app_l by done.
  - simpl. by rewrite lookup_app_r, Nat.sub_diag by done.
Qed.

Lemma elem_of_plates_of (tr : Trace) (plate : string) :
  plate ∈ plates_of tr
  ↔ ∃ key node frame,
      (key, node) ∈ tr ∧ is_scored node = true
      ∧ frame ∈ cond_indep_stack node ∧ vectorized frame = true
      ∧ frame_name frame = plate.
Proof.
  unfold plates_of. rewrite elem_of_union_list. split.
  - intros (X & ([key node] & -> & Hin)%list_elem_of_fmap & Hx).
    unfold site_plates in Hx. simpl in Hx.
    destruct (is_scored node) eqn:Hs; [|by apply not_elem_of_empty in Hx].
    unfold vectorized_names in Hx.
    apply elem_of_list_to_set, list_elem_of_fmap in Hx as (frame & -> & Hf).
    apply list_elem_of_filter in Hf as [Hv Hf].
    by exists key, node, frame.
  - intros (key & node & frame & Hin & Hs & Hf & Hv & <-).
    exists (site_plates node). split.
    + apply list_elem_of_fmap. by exists (key, node).
    + unfold site_plates. rewrite Hs. unfold vectorized_names.
      apply elem_of_list_to_set, list_elem_of_fmap. exists frame. split; [done|].
      by apply list_elem_of_filter.
Qed.

(** ** Which names become plate variables *)

(** X1: a name is a plate variable of the bundle exactly when it names a
    vectorized frame in the [cond_indep_stack] of a scored sample site;
    frames without a dimension and the stacks of skipped records
    contribute nothing. *)
Theorem plate_vars_are_vectorized_frames (tr : Trace) (plate : string) :
  plate ∈ plate_vars (terms_from_trace tr).1
  ↔ ∃ key node frame,
      (key, node) ∈ tr ∧ is_scored node = true
      ∧ frame ∈ cond_indep_stack node ∧ dim frame ≠ None
      ∧ frame_name frame = plate.
Proof.
  rewrite terms_from_trace_plate_vars, elem_of_plates_of.
  assert (Hv : ∀ frame, vectorized frame = true ↔ dim frame ≠ None).
  { intros frame. unfold vectorized. by destruct (dim frame). }
  split; intros (key & node & frame & ? & ? & ? & ? & ?);
    exists key, node, frame; by rewrite ?Hv in *.
Qed.

(** ** The keys of [plate_to_step] *)

Lemma chain_names_snoc (l : Trace) key node :
  chain_names (l ++ [(key, node)])
  = chain_names l
    ∪ (if bool_decide (type node = "markov_chain") then {[name node]} else ∅).
Proof.
  unfold chain_names. rewrite omap_app, list_to_set_app_L. f_equal. simpl.
  destruct (bool_decide _); simpl; [|done]. by rewrite (right_id_L ∅ (∪)).
Qed.

Lemma registered_step_is_Some (tr : Trace) (plate : string) :
  is_Some (registered_step tr plate) ↔ plate ∈ chain_names tr.
Proof.
  induction tr as [|[key node] tr IH] using rev_ind.
  - split; [by intros [? [=]]|]. by intros ?%not_elem_of_empty.
  - rewrite registered_step_snoc, chain_names_snoc, elem_of_union, <- IH.
    destruct (bool_decide (type node = "markov_chain")); simpl.
    + rewrite elem_of_singleton. case_bool_decide as Hnm.
      * split; [by right|]. by intros _.
      * split; [by left|]. intros [?|?]; [done|]. by subst.
    + rewrite elem_of_empty. split; [by left|]. by intros [?|[]].
Qed.

(** X2: the keys of [plate_to_step] in the returned bundle are the plate
    variables together with the names of the [markov_chain] records. *)
Theorem plate_to_step_keys (tr : Trace) :
  dom (plate_to_step (terms_from_trace tr).1)
  = plate_vars (terms_from_trace tr).1 ∪ chain_names tr.
Proof.
  apply set_eq. intros plate.
  rewrite elem_of_dom, elem_of_union, <- registered_step_is_Some.
  rewrite terms_from_trace_fst, add_plates_lookup, terms_after_plate_to_step.
  simpl. destruct (registered_step tr plate) as [step|].
  - split; [by right|]. by intros _.
  - case_decide as Hin.
    + split; [by left|]. by intros _.
    + split; [by intros [? [=]]|]. intros [?|[? [=]]]. done.
Qed.

(** ** Where the names of an enumerated site end up *)

(** X3: at a scored sample site that carries a log-measure, every input
    of the site's value, and the site's own key, is classified: it is a
    measure variable or a plate variable of the returned bundle. *)
Theorem names_are_classified (tr : Trace) (i : nat) (key : string) (node : Node) :
  tr !! i = Some (key, node) →
  is_scored node = true →
  is_Some (funsor_log_measure (funsor node)) →
  input_names (funsor_value (funsor node)) ∪ {[key]}
  ⊆ measure_vars (terms_from_trace tr).1 ∪ plate_vars (terms_from_trace tr).1.
Proof.
  intros Hi Hs [lm Hlm] x Hx.
  rewrite terms_from_trace_plate_vars, terms_from_trace_measure_vars.
  destruct (decide (x ∈ plates_of (take (S i) tr))) as [Hp|Hp].
  - apply elem_of_union_r. by apply (plates_of_take_subseteq tr (S i)).
  - apply elem_of_union_l, elem_of_measure_vars_upto. exists i.
    split; [by apply lookup_lt_Some in Hi|].
    rewrite contribution_names. apply elem_of_difference. split; [|done].
    unfold names_at, site_names. by rewrite Hi, Hs, Hlm.
Qed.

Lemma names_are_classified_witness :
  input_names (funsor_value (funsor site_z)) ∪ {["z"]}
  ⊆ measure_vars (terms_from_trace two_scales_model).1
    ∪ plate_vars (terms_from_trace two_scales_model).1.
Proof.
  apply (names_are_classified two_scales_model 0 "z" site_z).
  - reflexivity.
  - reflexivity.
  - simpl. eexists. reflexivity.
Defined.

(** X4: when every plate that the names of a site mention has been
    entered by the time the site is visited, no name is both a measure
    variable and a plate variable of the returned bundle. *)
Theorem measure_vars_disjoint_from_plates (tr : Trace) :
  plates_entered_first tr →
  measure_vars (terms_from_trace tr).1 ∩ plate_vars (terms_from_trace tr).1 = ∅.
Proof.
  intros Hfirst. apply set_eq. intros x.
  rewrite elem_of_intersection, elem_of_empty.
  rewrite terms_from_trace_plate_vars, terms_from_trace_measure_vars.
  split; [|done]. intros [Hm Hp].
  apply elem_of_measure_vars_upto in Hm as (i & Hi & Hx).
  rewrite contribution_names in Hx. apply elem_of_difference in Hx as [Hx Hnot].
  apply Hnot.
  unfold plates_entered_first in Hfirst. rewrite Forall_forall in Hfirst.
  apply (Hfirst i); [apply elem_of_seq; lia|].
  by apply elem_of_intersection.
Qed.

Lemma measure_vars_disjoint_from_plates_witness :
  measure_vars (terms_from_trace chain_trace).1
  ∩ plate_vars (terms_from_trace chain_trace).1 = ∅.
Proof.
  apply (measure_vars_disjoint_from_plates chain_trace).
  apply (bool_decide_unpack _). vm_compute. exact I.
Defined.

(** ** Where the shared scale comes from *)

Lemma elem_of_candidates (tr : Trace) (q : Q) :
  q ∈ candidates tr
  → ∃ i key node, tr !! i = Some (key, node) ∧ qualifies tr i = true
                  ∧ q = funsor_scale (funsor node).
Proof.
  unfold candidates. intros (i & _ & Hq)%list_elem_of_omap.
  destruct (qualifies tr i) eqn:Hqual; [|done].
  destruct (tr !! i) as [[key node]|] eqn:Hi; [|done].
  simpl in Hq. injection Hq as <-. by exists i, key, node.
Qed.

(** X5: the shared [scale] of the returned bundle is the default [1], or
    it is the scale of a scored, replay-active sample site of the trace
    and differs from [1]. *)
Theorem shared_scale_origin (tr : Trace) :
  scale (terms_from_trace tr).1 = Number 1
  ∨ ∃ i key node,
      tr !! i = Some (key, node)
      ∧ is_scored node = true ∧ replay_active node = true
      ∧ Qeq_bool (funsor_scale (funsor node)) 1 = false
      ∧ scale (terms_from_trace tr).1 = Number (funsor_scale (funsor node)).
Proof.
  rewrite terms_from_trace_fst. simpl. rewrite terms_after_scale.
  destruct (last (candidates tr)) as [q|] eqn:Hlast; [|by left].
  right. apply last_Some_elem_of, elem_of_candidates in Hlast
    as (i & key & node & Hi & Hqual & ->).
  exists i, key, node. split; [done|].
  unfold qualifies in Hqual. rewrite Hi in Hqual.
  apply andb_prop in Hqual as [Hs Hshare]. unfold shares_scale in Hshare.
  apply andb_prop in Hshare as [[Hact _]%andb_prop Hne].
  apply negb_true_iff in Hne. done.
Qed.

(** ** Traces without replay *)

Lemma no_candidate_scale (tr : Trace) :
  (∀ i, qualifies tr i = false) → candidates tr = [].
Proof.
  intros Hnone. unfold candidates.
  rewrite (omap_seq_ext _ (λ _, None)).
  - by induction (seq 0 (length tr)).
  - intros i _. by rewrite Hnone.
Qed.

Lemma no_candidate_factors (tr : Trace) :
  (∀ i, qualifies tr i = false) →
  factors_of tr
  = omap (λ kn : string * Node,
            if is_factor kn.2 then Some (scaled_log_prob kn.2) else None) tr.
Proof.
  intros Hnone. rewrite <- omap_by_position. apply omap_seq_ext.
  intros i _. unfold factor_at. by rewrite Hnone.
Qed.

Lemma no_candidate_trace (tr : Trace) :
  (∀ i, qualifies tr i = false) →
  (terms_from_trace tr).2
  = (λ kn : string * Node,
       (kn.1, if is_scored kn.2
              then set_log_prob kn.2 (scaled_log_prob kn.2) else kn.2)) <$> tr.
Proof.
  intros Hnone. apply list_eq. intros i. rewrite list_lookup_fmap.
  destruct (tr !! i) as [[key node]|] eqn:Hi; simpl.
  - rewrite (node_after _ _ _ _ Hi), Hnone. simpl. by rewrite andb_true_r.
  - apply lookup_ge_None. rewrite terms_from_trace_length.
    by apply lookup_ge_None.
Qed.

Lemma no_replay_no_candidate (tr : Trace) (i : nat) :
  Forall (λ kn : string * Node, replay_active kn.2 = false) tr →
  qualifies tr i = false.
Proof.
  intros Hall. unfold qualifies.
  destruct (tr !! i) as [[key node]|] eqn:Hi; [|done].
  rewrite Forall_forall in Hall.
  specialize (Hall (key, node) (list_elem_of_lookup_2 _ _ _ Hi)). simpl in Hall.
  unfold shares_scale. rewrite Hall. simpl. apply andb_false_r.
Qed.

(** X6: on a trace none of whose sites is replay-active (a trace that was
    not recorded under replay, such as a guide trace) the shared [scale]
    stays [1], every scored sample site has its scale multiplied into its
    [funsor.log_prob], and the factors are these products. *)
Theorem no_replay_scales_eagerly (tr : Trace) :
  Forall (λ kn : string * Node, replay_active kn.2 = false) tr →
  scale (terms_from_trace tr).1 = Number 1
  ∧ log_factors (terms_from_trace tr).1
    = omap (λ kn : string * Node,
              if is_factor kn.2 then Some (scaled_log_prob kn.2) else None) tr
  ∧ (terms_from_trace tr).2
    = (λ kn : string * Node,
         (kn.1, if is_scored kn.2
                then set_log_prob kn.2 (scaled_log_prob kn.2) else kn.2)) <$> tr.
Proof.
  intros Hall.
  pose proof (λ i, no_replay_no_candidate tr i Hall) as Hnone.
  split_and!.
  - rewrite terms_from_trace_fst. simpl.
    by rewrite terms_after_scale, no_candidate_scale.
  - rewrite terms_from_trace_fst. simpl.
    by rewrite terms_after_log_factors, no_candidate_factors.
  - by apply no_candidate_trace.
Qed.

Lemma no_replay_scales_eagerly_witness :
  scale (terms_from_trace scaled_observation).1 = Number 1
  ∧ log_factors (terms_from_trace scaled_observation).1
    = [Binary mul (Number (-2)) (Number 3)]
  ∧ (terms_from_trace scaled_observation).2
    = (λ kn : string * Node,
         (kn.1, if is_scored kn.2
                then set_log_prob kn.2 (scaled_log_prob kn.2) else kn.2))
        <$> scaled_observation.
Proof.
  apply (no_replay_scales_eagerly scaled_observation).
  repeat constructor.
Defined.

(** ** Extending a trace *)

(** X7: sites that follow in the trace do not change what the earlier
    sites contributed: the log-measures and the factors of a trace are a
    prefix of those of any extension of it, and its plate and measure
    variables are among those of the extension. *)
Theorem extension_only_adds (tr tr' : Trace) :
  log_measures (terms_from_trace tr).1
    `prefix_of` log_measures (terms_from_trace (tr ++ tr')).1
  ∧ log_factors (terms_from_trace tr).1
    `prefix_of` log_factors (terms_from_trace (tr ++ tr')).1
  ∧ plate_vars (terms_from_trace tr).1 ⊆ plate_vars (terms_from_trace (tr ++ tr')).1
  ∧ measure_vars (terms_from_trace tr).1
    ⊆ measure_vars (terms_from_trace (tr ++ tr')).1.
Proof.
  rewrite !terms_from_trace_plate_vars, !terms_from_trace_measure_vars.
  rewrite !terms_from_trace_fst. simpl.
  rewrite !terms_after_log_measures, !terms_after_log_factors.
  split_and!.
  - unfold measures_of. rewrite omap_app. by apply prefix_app_r.
  - unfold factors_of. rewrite length_app, seq_app, omap_app.
    rewrite (omap_seq_ext (factor_at (tr ++ tr')) (factor_at tr))
      by (intros i Hi; by apply factor_at_app_l).
    by apply prefix_app_r.
  - rewrite plates_of_app. apply union_subseteq_l.
  - intros x (i & Hi & Hx)%elem_of_measure_vars_upto.
    apply elem_of_measure_vars_upto. exists i.
    split; [rewrite length_app; lia|].
    by rewrite contribution_app_l.
Qed.

(** ** The inputs of the factors *)

Lemma scaled_log_prob_input_names (node : Node) :
  input_names (scaled_log_prob node) = input_names (funsor_log_prob (funsor node)).
Proof.
  unfold input_names, scaled_log_prob. simpl. by rewrite (right_id_L ∅ (∪)).
Qed.



(** ** Extracting a second time *)

Section same_sites.
Variables tr tr' : Trace.
Hypothesis Hsame : Forall2 same_site tr tr'.

Lemma same_lookup (i : nat) :
  match tr !! i, tr' !! i with
  | Some a, Some b => same_site a b
  | None, None => True
  | _, _ => False
  end.
Proof.
  pose proof (proj1 (Forall2_lookup _ _ _) Hsame i) as Hi.
  by destruct Hi.
Qed.

Lemma same_site_scored (a b : string * Node) :
  same_site a b → is_scored b.2 = is_scored a.2.
Proof.
  intros (_ & (Hty & _ & Hfn & Hinfer & _) & _).
  unfold is_scored. by rewrite Hty, Hfn, Hinfer.
Qed.

Lemma same_site_plates (a b : string * Node) :
  same_site a b → site_plates b.2 = site_plates a.2.
Proof.
  intros Hab. unfold site_plates. rewrite (same_site_scored _ _ Hab).
  destruct Hab as (_ & (_ & _ & _ & _ & _ & Hstack & _) & _).
  unfold vectorized_names. by rewrite Hstack.
Qed.

Lemma same_site_names (a b : string * Node) :
  same_site a b → site_names b.1 b.2 = site_names a.1 a.2.
Proof.
  intros Hab. unfold site_names. rewrite (same_site_scored _ _ Hab).
  destruct Hab as (Hkey & (_ & _ & _ & _ & _ & _ & _ & _ & _ & Hlm & Hv & _) & _).
  by rewrite Hlm, Hv, Hkey.
Qed.

Lemma same_site_shares (mv : gset string) (a b : string * Node) :
  same_site a b → shares_scale mv b.2 = shares_scale mv a.2.
Proof.
  intros (_ & (_ & _ & _ & _ & _ & _ & _ & Hact & _ & _ & _ & Hsc) & Hin).
  unfold shares_scale. by rewrite Hact, Hin, Hsc.
Qed.

Lemma same_site_factor (a b : string * Node) :
  same_site a b → is_factor b.2 = is_factor a.2.
Proof.
  intros Hab. unfold is_factor. rewrite (same_site_scored _ _ Hab).
  destruct Hab as (_ & (_ & _ & _ & _ & _ & _ & Hobs & _ & Hskip & _) & _).
  by rewrite Hobs, Hskip.
Qed.

End same_sites.

Lemma plates_of_same (tr tr' : Trace) :
  Forall2 same_site tr tr' → plates_of tr' = plates_of tr.
Proof.
  unfold plates_of. induction 1 as [|a b tr tr' Hab _ IH]; [done|].
  rewrite !fmap_cons. simpl. by rewrite IH, (same_site_plates _ _ Hab).
Qed.

Lemma contribution_same (tr tr' : Trace) (i : nat) :
  Forall2 same_site tr tr' → contribution tr' i = contribution tr i.
Proof.
  intros Hsame. rewrite !contribution_names.
  rewrite (plates_of_same _ _ (Forall2_take _ _ _ (S i) Hsame)). f_equal.
  unfold names_at. pose proof (same_lookup tr tr' Hsame i) as Hi.
  destruct (tr !! i) as [[key node]|], (tr' !! i) as [[key' node']|]; try done.
  apply (same_site_names _ _ Hi).
Qed.

Lemma measure_vars_upto_same (tr tr' : Trace) (k : nat) :
  Forall2 same_site tr tr' → measure_vars_upto tr' k = measure_vars_upto tr k.
Proof.
  intros Hsame. induction k as [|k IH]; [done|].
  by rewrite !measure_vars_upto_S, IH, (contribution_same tr tr').
Qed.

Lemma qualifies_same (tr tr' : Trace) (i : nat) :
  Forall2 same_site tr tr' → qualifies tr' i = qualifies tr i.
Proof.
  intros Hsame. unfold qualifies.
  rewrite (measure_vars_upto_same tr tr') by done.
  pose proof (same_lookup tr tr' Hsame i) as Hi.
  destruct (tr !! i) as [[key node]|], (tr' !! i) as [[key' node']|]; try done.
  pose proof (same_site_scored _ _ Hi) as Hs.
  pose proof (same_site_shares (measure_vars_upto tr (S i)) _ _ Hi) as Hshare.
  simpl in Hs, Hshare. by rewrite Hs, Hshare.
Qed.

Lemma candidates_same (tr tr' : Trace) :
  Forall2 same_site tr tr' → candidates tr' = candidates tr.
Proof.
  intros Hsame. unfold candidates.
  rewrite <- (Forall2_length _ _ _ Hsame). apply omap_seq_ext. intros i _.
  rewrite (qualifies_same tr tr') by done.
  pose proof (same_lookup tr tr' Hsame i) as Hi.
  destruct (tr !! i) as [[key node]|], (tr' !! i) as [[key' node']|]; try done.
  destruct Hi as (_ & (_ & _ & _ & _ & _ & _ & _ & _ & _ & _ & _ & Hsc) & _).
  simpl in *. by rewrite Hsc.
Qed.

Lemma measures_of_same (tr tr' : Trace) :
  Forall2 same_site tr tr' → measures_of tr' = measures_of tr.
Proof.
  intros Hsame. unfold measures_of. symmetry.
  apply list_omap_ext. eapply Forall2_impl; [exact Hsame|].
  intros a b Hab. rewrite (same_site_scored _ _ Hab).
  destruct Hab as (_ & (_ & _ & _ & _ & _ & _ & _ & _ & _ & Hlm & _) & _).
  by rewrite Hlm.
Qed.

Lemma registered_step_same (tr tr' : Trace) (plate : string) :
  Forall2 same_site tr tr' → registered_step tr' plate = registered_step tr plate.
Proof.
  intros Hsame. unfold registered_step. f_equal. symmetry.
  apply list_omap_ext. eapply Forall2_impl; [exact Hsame|].
  intros a b (_ & (Hty & Hnm & _ & _ & Hval & _) & _).
  by rewrite Hty, Hnm, Hval.
Qed.

Lemma is_factor_set_log_prob (node : Node) (lp : Funsor) :
  is_factor (set_log_prob node lp) = is_factor node.
Proof. done. Qed.

(** The trace a call leaves behind has the sites of the trace it was given. *)
Lemma trace_after_same (tr : Trace) : Forall2 same_site tr (terms_from_trace tr).2.
Proof.
  apply Forall2_same_length_lookup_2; [by rewrite terms_from_trace_length|].
  intros i [key node] b Hi Hb.
  rewrite (node_after _ _ _ _ Hi) in Hb. injection Hb as <-.
  split; [done|]. simpl.
  destruct (is_scored node && negb (qualifies tr i)).
  - split; [apply same_but_log_prob_set|]. simpl.
    apply scaled_log_prob_input_names.
  - split; [apply same_but_log_prob_refl|done].
Qed.

(** X9: extracting the terms of a trace a second time, after a first call
    has written to it, gives the same plates, measure variables,
    log-measures, plate-to-step entries and shared scale, but applies the
    scale of every site that does not share it once more: its factor is
    the log-probability multiplied by the scale twice. *)
Theorem second_extraction (tr : Trace) :
  let first := terms_from_trace tr in
  let second := terms_from_trace first.2 in
  plate_vars second.1 = plate_vars first.1
  ∧ measure_vars second.1 = measure_vars first.1
  ∧ log_measures second.1 = log_measures first.1
  ∧ plate_to_step second.1 = plate_to_step first.1
  ∧ scale second.1 = scale first.1
  ∧ log_factors second.1 = omap (factor_at_again tr) (seq 0 (length tr)).
Proof.
  intros first second.
  pose proof (trace_after_same tr) as Hsame. fold first in Hsame.
  assert (Hlen : length first.2 = length tr) by apply terms_from_trace_length.
  assert (Hpv : plate_vars second.1 = plate_vars first.1).
  { unfold second, first.
    by rewrite !terms_from_trace_plate_vars, (plates_of_same tr). }
  split_and!; [done|..].
  - unfold second, first. rewrite !terms_from_trace_measure_vars.
    fold first. by rewrite Hlen, (measure_vars_upto_same tr).
  - unfold second, first. rewrite !terms_from_trace_fst. simpl.
    by rewrite !terms_after_log_measures, (measures_of_same tr).
  - apply map_eq. intros plate.
    unfold second, first in *. rewrite !terms_from_trace_fst in *.
    rewrite !add_plates_lookup, !terms_after_plate_to_step.
    simpl in Hpv. rewrite (registered_step_same tr) by done.
    destruct (registered_step tr plate); [done|].
    by rewrite Hpv.
  - unfold second, first. rewrite !terms_from_trace_fst. simpl.
    by rewrite !terms_after_scale, (candidates_same tr).
  - unfold second. rewrite terms_from_trace_fst. simpl.
    rewrite terms_after_log_factors. unfold factors_of. rewrite Hlen.
    apply omap_seq_ext. intros i Hi.
    unfold factor_at, factor_at_again.
    rewrite (qualifies_same tr) by done.
    destruct (lookup_lt_is_Some_2 tr i Hi) as [[key node] Hnode].
    unfold first. rewrite (node_after _ _ _ _ Hnode), Hnode.
    cbn [mbind option_bind snd].
    destruct (is_scored node && negb (qualifies tr i)) eqn:Hwritten.
    + apply andb_prop in Hwritten as [_ Hq%negb_true_iff]. rewrite Hq.
      by rewrite is_factor_set_log_prob.
    + destruct (is_factor node) eqn:Hf; [|done].
      apply andb_prop in Hf as [Hs _]. rewrite Hs in Hwritten.
      apply negb_false_iff in Hwritten. by rewrite Hwritten.
Qed.

(** * Further properties of the two losses *)

(** ** Inputs of the terms the losses build *)

Lemma dom_without (vs : gset string) (m : gmap string nat) :
  dom (without vs m) = dom m ∖ vs.
Proof.
  apply set_eq. intros x. unfold without.
  rewrite elem_of_difference, !elem_of_dom. unfold is_Some.
  setoid_rewrite map_lookup_filter_Some. simpl. split.
  - intros (n & Hn & Hx). split; [by exists n|done].
  - intros [[n Hn] Hx]. by exists n.
Qed.

Lemma input_names_Binary (op : Op) (a b : Funsor) :
  input_names (Binary op a b) = input_names a ∪ input_names b.
Proof. unfold input_names. simpl. apply dom_union_L. Qed.

Lemma input_names_Reduce (op : Op) (a : Funsor) (vs : gset string) :
  input_names (Reduce op a vs) = input_names a ∖ vs.
Proof. unfold input_names. simpl. apply dom_without. Qed.

Lemma input_names_Integrate (lm f : Funsor) (vs : gset string) :
  input_names (Integrate lm f vs) = (input_names lm ∪ input_names f) ∖ vs.
Proof. unfold input_names. simpl. by rewrite dom_without, dom_union_L. Qed.

Lemma inputs_none (f : Funsor) : inputs f = ∅ ↔ input_names f = ∅.
Proof. unfold input_names. by rewrite dom_empty_iff_L. Qed.

Lemma reduce_all_inputs (op : Op) (f : Funsor) : inputs (reduce op f None) = ∅.
Proof.
  apply inputs_none. unfold reduce. simpl.
  rewrite input_names_Reduce. apply difference_diag_L.
Qed.

(** ** The split of the model's factors *)

(** X10: the split into contracted and uncontracted factors loses and
    duplicates nothing and keeps the order within each group: the two
    groups together are a permutation of the model's factors, each is a
    sublist of them, a contracted factor mentions a measure variable of
    the model and an uncontracted factor mentions none. *)
Theorem factor_split (model_terms : Terms) :
  contracted_factors model_terms ++ uncontracted_factors model_terms
    ≡ₚ log_factors model_terms
  ∧ contracted_factors model_terms `sublist_of` log_factors model_terms
  ∧ uncontracted_factors model_terms `sublist_of` log_factors model_terms
  ∧ Forall (λ f, measure_vars model_terms ∩ input_names f ≠ ∅)
           (contracted_factors model_terms)
  ∧ Forall (λ f, measure_vars model_terms ∩ input_names f = ∅)
           (uncontracted_factors model_terms).
Proof.
  unfold contracted_factors, uncontracted_factors.
  split_and!.
  - rewrite (list_filter_iff
               (λ f, intersects (measure_vars model_terms) (input_names f) = false)
               (λ f, ¬ intersects (measure_vars model_terms) (input_names f) = true)).
    + apply filter_app_complement.
    + intros f. by destruct (intersects _ _).
  - apply sublist_filter.
  - apply sublist_filter.
  - apply Forall_forall. intros f [Hf _]%list_elem_of_filter.
    unfold intersects in Hf. apply negb_true_iff, bool_decide_eq_false in Hf. done.
  - apply Forall_forall. intros f [Hf _]%list_elem_of_filter.
    unfold intersects in Hf. apply negb_false_iff, bool_decide_eq_true in Hf. done.
Qed.

Section loss_extras.
Context {E : Engine}.
Implicit Types (guide_terms model_terms : Terms) (log : list Call).

(** ** The Markov expression is a scalar *)

Lemma markov_sum_from_inputs guide_terms (picked : list (Funsor * Funsor))
    (elbo : Funsor) :
  inputs elbo = ∅ →
  inputs (foldl (λ elbo cp, Binary add elbo
                              (markov_expected_cost guide_terms cp.1 cp.2))
                elbo picked) = ∅.
Proof.
  revert elbo. induction picked as [|cp picked IH]; intros elbo Helbo; [done|].
  cbn [foldl]. apply IH. cbn [inputs]. rewrite Helbo.
  unfold markov_expected_cost. rewrite reduce_all_inputs.
  apply (left_id_L ∅ (∪)).
Qed.

(** X11: when the assembly of the Markov path returns, the expression it
    built has no inputs left (every contribution is reduced over all of
    its inputs), and it has made no call to the engine. *)
Theorem markov_elbo_is_scalar guide_terms (costs log_qs : list Funsor) log
    (elbo : Funsor) log' :
  markov_assemble guide_terms costs log_qs log = (Return elbo, log') →
  inputs elbo = ∅ ∧ log' = log.
Proof.
  rewrite markov_assemble_run.
  destruct (mapM (first_marginal log_qs) costs) as [picks|]; [|done].
  intros [= <- <-]. split; [|done].
  by apply markov_sum_from_inputs.
Qed.

(** ** What the plate-parallel expression still depends on *)

Lemma expected_cost_input_names guide_terms model_terms (f : Funsor) :
  input_names (guide_marginal guide_terms model_terms f)
    ## (all_plates guide_terms model_terms ∪ measure_vars guide_terms) ∖ input_names f →
  input_names (expected_cost guide_terms model_terms f)
    ## all_plates guide_terms model_terms ∪ measure_vars guide_terms.
Proof.
  intros Hmarginal x Hx Hin. unfold expected_cost in Hx.
  rewrite input_names_Reduce, input_names_Integrate in Hx.
  apply elem_of_difference in Hx as [[Hx Hmeasure]%elem_of_difference Hplate].
  rewrite elem_of_intersection in Hmeasure, Hplate.
  destruct (decide (x ∈ input_names f)) as [Hf|Hf].
  - apply elem_of_union in Hin as [Hp|Hm]; [by apply Hplate|by apply Hmeasure].
  - apply elem_of_union in Hx as [Hx|Hx]; [|done].
    apply (Hmarginal x Hx). by apply elem_of_difference.
Qed.

(** X12: if no marginal that [sum_product] returns still has an input
    that it was asked to eliminate, then the expression the plate-parallel
    assembly builds depends on no plate variable and on no measure
    variable of the guide: each has been integrated or summed out of
    every contribution. *)
Theorem enum_elbo_sums_out guide_terms model_terms (costs : list Funsor) log
    (elbo : Funsor) log' :
  Forall (λ f, input_names (guide_marginal guide_terms model_terms f)
               ## (all_plates guide_terms model_terms ∪ measure_vars guide_terms)
                  ∖ input_names f) costs →
  enum_assemble guide_terms model_terms costs log = (Return elbo, log') →
  input_names elbo ## all_plates guide_terms model_terms ∪ measure_vars guide_terms.
Proof.
  intros Hmarginals. rewrite enum_assemble_run. intros [= <- _].
  unfold sum_of_contributions.
  assert (Hzero : input_names (Number 0)
                  ## all_plates guide_terms model_terms ∪ measure_vars guide_terms).
  { unfold input_names. simpl. rewrite dom_empty_L. apply disjoint_empty_l. }
  revert Hzero. generalize (Number 0).
  induction Hmarginals as [|f costs Hf _ IH]; intros acc Hacc; [done|].
  simpl. apply IH. rewrite input_names_Binary.
  apply disjoint_union_l. split; [done|].
  by apply expected_cost_input_names.
Qed.

End loss_extras.

Lemma markov_elbo_is_scalar_witness :
  inputs (Binary add (Number 0)
            (reduce add
               (Integrate (tensor 1 [("z", 2)]) (tensor 0 [("z", 2)])
                          (input_names (tensor 0 [("z", 2)]) ∖ ∅)) None)) = ∅
  ∧ ([] : list Call) = [].
Proof.
  apply (markov_elbo_is_scalar initial_terms
           [tensor 0 [("z", 2)]] [tensor 1 [("z", 2)]] []).
  vm_compute. reflexivity.
Defined.

Lemma enum_elbo_sums_out_witness :
  input_names
    (sum_of_contributions
       (expected_cost (E := symbolic_engine)
          (terms_from_trace plated_guide).1 (terms_from_trace global_observation).1)
       (enum_cost_terms (E := symbolic_engine)
          (terms_from_trace plated_guide).1 (terms_from_trace global_observation).1))
  ## all_plates (terms_from_trace plated_guide).1 (terms_from_trace global_observation).1
     ∪ measure_vars (terms_from_trace plated_guide).1.
Proof.
  eapply (enum_elbo_sums_out (E := symbolic_engine)
            (terms_from_trace plated_guide).1 (terms_from_trace global_observation).1
            (enum_cost_terms (E := symbolic_engine)
               (terms_from_trace plated_guide).1
               (terms_from_trace global_observation).1) []).
  - apply (bool_decide_unpack _). vm_compute. exact I.
  - apply enum_assemble_run.
Defined.

Section markov_failure.
Context {E : Engine}.

Lemma markov_loss_result (guide_tr model_tr : Trace) :
  let guide_terms := (terms_from_trace guide_tr).1 in
  let model_terms := (terms_from_trace model_tr).1 in
  (TraceMarkovEnum_ELBO_differentiable_loss guide_tr model_tr []).1
  = match mapM (first_marginal (markov_marginals guide_terms model_terms))
               (markov_cost_terms guide_terms model_terms) with
    | Some picks =>
        Return (Unary neg
                  (apply_optimizer
                     (markov_sum guide_terms
                        (zip (markov_cost_terms guide_terms model_terms) picks))))
    | None => Raise StopIteration
    end.
Proof.
  intros guide_terms model_terms.
  unfold TraceMarkovEnum_ELBO_differentiable_loss. fold guide_terms model_terms.
  rewrite bind_assoc_run, markov_costs_and_marginals_run. cbn [fst snd].
  rewrite bind_assoc_run, markov_assemble_run.
  by destruct (mapM _ _).
Qed.

Lemma unmatched_by_inputs (log_qs targets : list Funsor) (ins : gmap string nat) :
  inputs <$> log_qs = inputs <$> targets →
  (∀ log_q, log_q ∈ log_qs → inputs log_q ≠ ins)
  ↔ (∀ t, t ∈ targets → inputs t ≠ ins).
Proof.
  intros Hsame.
  assert (Hin : ∀ l : list Funsor,
            (∀ f, f ∈ l → inputs f ≠ ins) ↔ ins ∉ inputs <$> l).
  { intros l. rewrite list_elem_of_fmap. split.
    - intros Hall (f & -> & Hf). by apply (Hall f).
    - intros Hnot f Hf Heq. apply Hnot. by exists f. }
  by rewrite !Hin, Hsame.
Qed.

(** X13: suppose the adjoint pass returns marginals that have, in order,
    the inputs of its targets.  Then a model cost always finds its
    marginal (that of its own probe, or an earlier one with the same
    inputs), and the loss of the Markov path fails exactly when some
    log-density factor of the guide has inputs that are those of no
    probe and of no log-measure of the guide; otherwise it is returned. *)
Theorem markov_failure_is_a_guide_factor (guide_tr model_tr : Trace) :
  let guide_terms := (terms_from_trace guide_tr).1 in
  let model_terms := (terms_from_trace model_tr).1 in
  let loss := (TraceMarkovEnum_ELBO_differentiable_loss guide_tr model_tr []).1 in
  inputs <$> markov_marginals guide_terms model_terms
  = inputs <$> markov_targets guide_terms model_terms →
  (loss = Raise StopIteration
   ↔ ∃ f, f ∈ log_factors guide_terms
          ∧ ∀ t, t ∈ markov_targets guide_terms model_terms → inputs t ≠ inputs f)
  ∧ ((∀ f, f ∈ log_factors guide_terms →
           ∃ t, t ∈ markov_targets guide_terms model_terms ∧ inputs t = inputs f) →
     ∃ r, loss = Return r).
Proof.
  intros guide_terms model_terms loss Hadjoint.
  assert (Hfail : loss = Raise StopIteration
                  ↔ ∃ f, f ∈ log_factors guide_terms
                         ∧ ∀ t, t ∈ markov_targets guide_terms model_terms
                                → inputs t ≠ inputs f).
  { unfold loss. rewrite markov_loss_result. fold guide_terms model_terms.
    destruct (mapM _ _) as [picks|] eqn:Hpicks.
    - split; [done|]. intros (f & Hf & Hnone). exfalso.
      assert (Hsome : is_Some (mapM (first_marginal
                                       (markov_marginals guide_terms model_terms))
                                    (markov_cost_terms guide_terms model_terms)))
        by (by rewrite Hpicks).
      apply mapM_is_Some in Hsome. rewrite Forall_forall in Hsome.
      assert (Hcost : Unary neg f ∈ markov_cost_terms guide_terms model_terms).
      { unfold markov_cost_terms. rewrite !elem_of_app. right. right.
        apply list_elem_of_fmap. by exists f. }
      destruct (Hsome _ Hcost) as [pick Hpick]. simpl in Hpick.
      assert (first_marginal (markov_marginals guide_terms model_terms)
                             (Unary neg f) = None) as Habsent; [|congruence].
      apply first_marginal_None.
      by apply (unmatched_by_inputs _ _ _ Hadjoint).
    - split; [|done]. intros _.
      apply mapM_None, Exists_exists in Hpicks as (cost & Hcost & Hnone).
      rewrite first_marginal_None, (unmatched_by_inputs _ _ _ Hadjoint) in Hnone.
      unfold markov_cost_terms in Hcost. rewrite (assoc_L (++)) in Hcost.
      apply elem_of_app in Hcost as [Hmodel|Hguide].
      + exfalso. apply (Hnone (probe cost)); [|done].
        unfold markov_targets. apply elem_of_app. left.
        apply list_elem_of_fmap. by exists cost.
      + apply list_elem_of_fmap in Hguide as (f & -> & Hf). by exists f. }
  split; [exact Hfail|].
  intros Hall. unfold loss in *. rewrite markov_loss_result in *.
  fold guide_terms model_terms in Hfail |- *.
  destruct (mapM _ _) as [picks|]; [by eexists|].
  destruct (proj1 Hfail eq_refl) as (f & Hf & Hnone).
  destruct (Hall f Hf) as (t & Ht & Heq). by destruct (Hnone t Ht).
Qed.

End markov_failure.

Lemma markov_failure_is_a_guide_factor_witness :
  let guide_terms := (terms_from_trace plated_guide).1 in
  let model_terms := (terms_from_trace global_observation).1 in
  let loss := (TraceMarkovEnum_ELBO_differentiable_loss (E := symbolic_engine)
                 plated_guide global_observation []).1 in
  (loss = Raise StopIteration
   ↔ ∃ f, f ∈ log_factors guide_terms
          ∧ ∀ t, t ∈ markov_targets (E := symbolic_engine) guide_terms model_terms
                 → inputs t ≠ inputs f)
  ∧ ((∀ f, f ∈ log_factors guide_terms →
           ∃ t, t ∈ markov_targets (E := symbolic_engine) guide_terms model_terms
                ∧ inputs t = inputs f) →
     ∃ r, loss = Return r).
Proof.
  apply (markov_failure_is_a_guide_factor (E := symbolic_engine)
           plated_guide global_observation).
  vm_compute. reflexivity.
Defined.

(** ** The two paths on a model without sequential plates *)

Section same_costs.
Context {E : Engine}.

(** X14: when no entry of the model's [plate_to_step] is a non-empty
    descriptor, the Markov path hands [modified_partial_sum_product] the
    factors and the [eliminate] set that the plate-parallel path hands
    [partial_sum_product]; if the two routines return the same residual
    factors for them, both paths go on with the same cost terms, in the
    same order. *)
Theorem same_costs_without_sequential_plates (guide_terms model_terms : Terms) :
  map_Forall (λ _ step, step = []) (plate_to_step model_terms) →
  modified_partial_sum_product logaddexp add
    (log_measures model_terms ++ contracted_factors model_terms)
    (plate_to_step model_terms) (measure_vars model_terms)
  = partial_sum_product logaddexp add
      (log_measures model_terms ++ contracted_factors model_terms)
      (plate_vars model_terms) (measure_vars model_terms) →
  measure_vars model_terms ∪ markov_dims model_terms = measure_vars model_terms
  ∧ markov_cost_terms guide_terms model_terms
    = enum_cost_terms guide_terms model_terms.
Proof.
  intros Hempty Hagree.
  assert (Hdims : measure_vars model_terms ∪ markov_dims model_terms
                  = measure_vars model_terms).
  { apply markov_dims_empty. intros plate step Hstep. by apply (Hempty plate). }
  split; [done|].
  unfold markov_cost_terms, enum_cost_terms. by rewrite Hdims, Hagree.
Qed.

End same_costs.

Lemma same_costs_without_sequential_plates_witness :
  measure_vars (terms_from_trace two_scales_model).1
    ∪ markov_dims (terms_from_trace two_scales_model).1
  = measure_vars (terms_from_trace two_scales_model).1
  ∧ markov_cost_terms (E := symbolic_engine)
      (terms_from_trace plated_guide).1 (terms_from_trace two_scales_model).1
    = enum_cost_terms (E := symbolic_engine)
        (terms_from_trace plated_guide).1 (terms_from_trace two_scales_model).1.
Proof.
  apply (same_costs_without_sequential_plates (E := symbolic_engine)).
  - apply (bool_decide_unpack _). vm_compute. exact I.
  - reflexivity.
Defined.

(** * Records the extraction passes over *)

Lemma visit_not_read terms key node :
  is_read (key, node) = false → (visit terms key node).1 = terms.
Proof.
  unfold is_read. simpl. intros [Hs Hchain]%orb_false_elim.
  unfold visit. rewrite Hs, Hchain. simpl. by destruct terms.
Qed.

Lemma visit_all_read terms (tr : Trace) :
  (visit_all terms (filter (λ kn, is_read kn = true) tr)).1 = (visit_all terms tr).1.
Proof.
  revert terms. induction tr as [|[key node] tr IH]; intros terms; [done|].
  rewrite filter_cons. destruct (decide (is_read (key, node) = true)) as [Hr|Hr].
  - rewrite !visit_all_cons. cbn [fst]. apply IH.
  - rewrite visit_all_cons. cbn [fst].
    rewrite visit_not_read by (by apply not_true_is_false). apply IH.
Qed.

(** X15: only scored sample sites and [markov_chain] records matter to
    the bundle: taking every other record (parameters, subsampling
    pseudo-sites, sites marked do-not-score) out of the trace leaves the
    returned bundle the same. *)
Theorem other_records_are_passed_over (tr : Trace) :
  (terms_from_trace (filter (λ kn, is_read kn = true) tr)).1
  = (terms_from_trace tr).1.
Proof.
  rewrite !terms_from_trace_fst. unfold terms_after. by rewrite visit_all_read.
Qed.

Lemma omap_all_none {A B} (f : A → option B) (l : list A) :
  Forall (λ x, f x = None) l → omap f l = [].
Proof. induction 1 as [|x l Hx _ IH]; [done|]. simpl. by rewrite Hx. Qed.

(** X16: a trace without a scored sample site gives a bundle without
    factors, log-measures, plate variables and measure variables, with
    the default scale and with the descriptors of its [markov_chain]
    records as only entries of [plate_to_step]; the trace is left as it
    was. *)
Theorem nothing_scored (tr : Trace) :
  Forall (λ kn : string * Node, is_scored kn.2 = false) tr →
  log_factors (terms_from_trace tr).1 = []
  ∧ log_measures (terms_from_trace tr).1 = []
  ∧ plate_vars (terms_from_trace tr).1 = ∅
  ∧ measure_vars (terms_from_trace tr).1 = ∅
  ∧ scale (terms_from_trace tr).1 = Number 1
  ∧ dom (plate_to_step (terms_from_trace tr).1) = chain_names tr
  ∧ (terms_from_trace tr).2 = tr.
Proof.
  intros Hnone.
  assert (Hqual : ∀ i, qualifies tr i = false).
  { intros i. unfold qualifies.
    destruct (tr !! i) as [[key node]|] eqn:Hi; [|done].
    rewrite Forall_forall in Hnone.
    pose proof (Hnone (key, node) (list_elem_of_lookup_2 _ _ _ Hi)) as Hs.
    simpl in Hs. by rewrite Hs. }
  assert (Hplates : plate_vars (terms_from_trace tr).1 = ∅).
  { rewrite terms_from_trace_plate_vars. unfold plates_of.
    apply empty_union_list_L, Forall_fmap.
    eapply Forall_impl; [exact Hnone|].
    intros [key node] Hs. simpl in *. unfold site_plates. by rewrite Hs. }
  split_and!.
  - rewrite terms_from_trace_fst. simpl.
    rewrite terms_after_log_factors, no_candidate_factors by done.
    apply omap_all_none. eapply Forall_impl; [exact Hnone|].
    intros [key node] Hs. simpl in *. unfold is_factor. by rewrite Hs.
  - rewrite terms_from_trace_fst. simpl. rewrite terms_after_log_measures.
    apply omap_all_none. eapply Forall_impl; [exact Hnone|].
    intros [key node] Hs. simpl in *. by rewrite Hs.
  - done.
  - rewrite terms_from_trace_measure_vars. apply set_eq. intros x.
    rewrite elem_of_measure_vars_upto, elem_of_empty. split; [|done].
    intros (i & _ & Hx). rewrite contribution_names in Hx.
    apply elem_of_difference in Hx as [Hx _]. unfold names_at in Hx.
    destruct (tr !! i) as [[key node]|] eqn:Hi; [|by apply elem_of_empty in Hx].
    rewrite Forall_forall in Hnone.
    pose proof (Hnone (key, node) (list_elem_of_lookup_2 _ _ _ Hi)) as Hs.
    simpl in Hs. unfold site_names in Hx. rewrite Hs in Hx.
    by apply elem_of_empty in Hx.
  - rewrite terms_from_trace_fst. simpl.
    by rewrite terms_after_scale, no_candidate_scale.
  - rewrite plate_to_step_keys, Hplates. apply (left_id_L ∅ (∪)).
  - rewrite no_candidate_trace by done.
    rewrite <- (list_fmap_id tr) at 2. apply Forall_fmap_ext.
    eapply Forall_impl; [exact Hnone|].
    intros [key node] Hs. simpl in *. by rewrite Hs.
Qed.

Lemma nothing_scored_witness :
  log_factors (terms_from_trace [("t", markov_chain_record "t" [["a"; "b"]])]).1 = []
  ∧ log_measures (terms_from_trace [("t", markov_chain_record "t" [["a"; "b"]])]).1 = []
  ∧ plate_vars (terms_from_trace [("t", markov_chain_record "t" [["a"; "b"]])]).1 = ∅
  ∧ measure_vars (terms_from_trace [("t", markov_chain_record "t" [["a"; "b"]])]).1 = ∅
  ∧ scale (terms_from_trace [("t", markov_chain_record "t" [["a"; "b"]])]).1 = Number 1
  ∧ dom (plate_to_step (terms_from_trace [("t", markov_chain_record "t" [["a"; "b"]])]).1)
    = chain_names [("t", markov_chain_record "t" [["a"; "b"]])]
  ∧ (terms_from_trace [("t", markov_chain_record "t" [["a"; "b"]])]).2
    = [("t", markov_chain_record "t" [["a"; "b"]])].
Proof.
  apply (nothing_scored [("t", markov_chain_record "t" [["a"; "b"]])]).
  repeat constructor.
Defined.

(** * How often the engine is called *)

Section call_counts.
Context {E : Engine}.


End call_counts.
